(** * Erdos-888 computational core: a shallow embedding and its properties

    The Python module [Erdos-888-Computational.py] is embedded function by
    function.  Python integers are unbounded, so they are values of [Z];
    Python lists are [list]; the sets the code builds are [gset Z]; the
    insertion-ordered [defaultdict(list)] of [compute_f_sf] is an
    association list that keeps the order in which keys were first
    inserted.  [check_admissible] and [check_fixing_opportunity] only call
    [sorted] on their argument, so it is taken as the list in which the
    iterable (a list, or a set in its iteration order) enumerates its
    elements.  Exceptions and loops that may not terminate are made
    explicit in the [outcome] type; the interpreter's resource limits
    (recursion depth, memory, running time) are not modelled. *)

From Stdlib Require Import ZArith Zdivisibility Lia.
From stdpp Require Import base option list sorting gmap sets.

Local Open Scope Z_scope.

(** ** Outcomes of a call *)

Inductive exn : Set :=
  | TypeError
  | ZeroDivisionError
  | IndexError
  | KeyError.

(** A call returns a value, raises, or is still running when the fuel of
    its [while] loops is used up. *)
Inductive outcome (A : Type) : Type :=
  | Ret (a : A)
  | Raise (e : exn)
  | OutOfFuel.

Arguments Ret {A} a.
Arguments Raise {A} e.
Arguments OutOfFuel {A}.

Definition outcome_bind {A B : Type} (f : A -> outcome B) (m : outcome A) : outcome B :=
  match m with
  | Ret a => f a
  | Raise e => Raise e
  | OutOfFuel => OutOfFuel
  end.

(** stdpp's [x ← m; k] notation then sequences calls. *)
#[global] Instance outcome_mbind : MBind outcome := @outcome_bind.
#[global] Instance outcome_mret : MRet outcome := @Ret.

Fixpoint map_outcome {A B : Type} (f : A -> outcome B) (l : list A) : outcome (list B) :=
  match l with
  | [] => Ret []
  | x :: l' => y ← f x; ys ← map_outcome f l'; Ret (y :: ys)
  end.

(** ** Sequences *)

(** [sorted(l)] and [sorted(l, key=..., reverse=True)]: Python's sort is
    stable; [le x y] says that [x] may stay in front of [y]. *)
Fixpoint insert_by {A : Type} (le : A -> A -> bool) (x : A) (l : list A) : list A :=
  match l with
  | [] => [x]
  | y :: l' => if le x y then x :: y :: l' else y :: insert_by le x l'
  end.

Fixpoint sorted_by {A : Type} (le : A -> A -> bool) (l : list A) : list A :=
  match l with
  | [] => []
  | x :: l' => insert_by le x (sorted_by le l')
  end.

Definition sorted (l : list Z) : list Z := sorted_by Z.leb l.

(** [range(lo, hi)] *)
Definition range (lo hi : Z) : list Z := seqZ lo (hi - lo).

(** [range(lo, hi, step)] for a positive [step] *)
Definition range_step (lo hi step : Z) : list Z :=
  (fun k => lo + k * step) <$> seqZ 0 ((hi - lo + step - 1) `div` step).

(** [itertools.combinations(l, k)] *)
Fixpoint combinations {A : Type} (l : list A) (k : nat) : list (list A) :=
  match k with
  | O => [[]]
  | S k' =>
      match l with
      | [] => []
      | x :: l' => (cons x <$> combinations l' k') ++ combinations l' k
      end
  end.

(** [itertools.product] of the lists in [ls]: the last position varies fastest. *)
Fixpoint cart_product {A : Type} (ls : list (list A)) : list (list A) :=
  match ls with
  | [] => [[]]
  | l :: ls' => x ← l; (cons x <$> cart_product ls')
  end.

(** The pairs [(l[i], l[j])] for [i] ascending and then [j > i] ascending:
    [for i in range(len(l)): for j in range(i + 1, len(l))]. *)
Fixpoint all_pairs {A : Type} (l : list A) : list (A * A) :=
  match l with
  | [] => []
  | x :: l' => (pair x <$> l') ++ all_pairs l'
  end.

(** ** Integer primitives *)

(** [int(n**0.5)]: the truncated float square root, which is the integer
    square root on the range where a double holds [n] exactly (a root that
    rounds up would change nothing, see [sieve_table_overshoot]); a negative
    [n] gives a complex number, on which [int] raises. *)
Definition int_sqrt (n : Z) : outcome Z :=
  if n <? 0 then Raise TypeError else Ret (Z.sqrt n).

(** The inner loop of the sieve: [for j in range(sq, n + 1, sq): is_sf[j] = False] *)
Definition mark_multiples (n sq : Z) (is_sf : list bool) : list bool :=
  foldl (fun acc j => <[Z.to_nat j := false]> acc) is_sf (range_step sq (n + 1) sq).

Definition sieve_table (n r : Z) : list bool :=
  foldl (fun acc i => mark_multiples n (i * i) acc)
        (replicate (Z.to_nat (n + 1)) true) (range 2 (r + 1)).

Definition sieve_square_free (n : Z) : outcome (list Z) :=
  r ← int_sqrt n;
  let is_sf := sieve_table n r in
  Ret (filter (fun x => is_sf !! Z.to_nat x = Some true) (range 1 (n + 1))).

(** [while temp % d == 0: temp //= d] *)
Fixpoint strip_factor (fuel : nat) (d temp : Z) : outcome Z :=
  match fuel with
  | O => OutOfFuel
  | S fuel' =>
      if temp `mod` d =? 0 then strip_factor fuel' d (temp `div` d) else Ret temp
  end.

(** The outer [while d * d <= temp] loop; the state is [(kernel, d, temp)]. *)
Fixpoint kernel_loop (fuel : nat) (kernel d temp : Z) : outcome (Z * Z) :=
  match fuel with
  | O => OutOfFuel
  | S fuel' =>
      if d * d <=? temp then
        if temp `mod` d =? 0 then
          temp' ← strip_factor (Z.to_nat temp) d temp;
          kernel_loop fuel' (kernel * d) (d + 1) temp'
        else kernel_loop fuel' kernel (d + 1) temp
      else Ret (kernel, temp)
  end.

(** After the loop: [if temp > 1: kernel *= temp], then [return kernel]. *)
Definition kernel_result (kernel temp : Z) : Z :=
  if 1 <? temp then kernel * temp else kernel.

Definition square_free_kernel (m : Z) : outcome Z :=
  if m =? 0 then Ret 0 else
  '(kernel, temp) ← kernel_loop (S (Z.to_nat m)) 1 2 m;
  Ret (kernel_result kernel temp).

(** [math.gcd] is non-negative, as is [Z.gcd]; [//] is floor division, as
    is [Z.div], but raises on a zero divisor. *)
Definition core (a b : Z) : outcome Z :=
  let g := Z.gcd a b in
  if g * g =? 0 then Raise ZeroDivisionError else Ret ((a * b) `div` (g * g)).

Definition is_square (n : Z) : bool :=
  if n <? 0 then false else
  let root := Z.sqrt n in
  root * root =? n.

(** ** Admissibility *)

Definition quad_ok (quad : list Z) : bool :=
  match quad with
  | [a; b; c; d] =>
      if is_square (a * b * c * d) then a * d =? b * c else true
  | _ => true
  end.

Definition pair_ok (p : Z * Z) : bool :=
  let '(x, y) := p in
  (if is_square (x * x * x * y) then x * y =? x * x else true)
  && (if is_square (x * y * y * y) then x * y =? y * y else true).

(** [A] is any iterable of integers (a list, or the elements of a set);
    the function returns [False] at the first violation, so its value is
    the conjunction of all the tests. *)
Definition check_admissible (A : list Z) : bool :=
  let A_sorted := sorted A in
  forallb quad_ok (combinations A_sorted 4)
  && forallb pair_ok (all_pairs A_sorted).

(** ** Fixing-opportunity search *)

(** [s = 1; while k * s * s <= n: s += 1] *)
Fixpoint scale_loop (fuel : nat) (n k s : Z) : outcome Z :=
  match fuel with
  | O => OutOfFuel
  | S fuel' => if k * s * s <=? n then scale_loop fuel' n k (s + 1) else Ret s
  end.

Definition max_scale (n k : Z) : outcome Z :=
  s ← scale_loop (Z.to_nat n + 1) n k 1; Ret (s - 1).

(** One pass of the body of [for scales in cart_product ...]: [None] is
    [continue] (or falling through to the next iteration), [Some A] is
    [return True, A]. *)
Definition try_scales (kernels scales : list Z) : outcome (option (list Z)) :=
  if forallb (fun s => s =? 1) scales then Ret None else
  let A := zip_with (fun k s => k * s * s) kernels scales in
  if negb (bool_decide (size (list_to_set A : gset Z) = length A)) then Ret None else
  let A_sorted := sorted A in
  match A_sorted !! 0%nat, A_sorted !! 1%nat, A_sorted !! 2%nat, A_sorted !! 3%nat with
  | Some a0, Some a1, Some a2, Some a3 =>
      let prod := a0 * a1 * a2 * a3 in
      if is_square prod then
        if a0 * a3 =? a1 * a2 then Ret (Some A) else Ret None
      else Ret None
  | _, _, _, _ => Raise IndexError
  end.

Fixpoint search_scales (kernels : list Z) (candidates : list (list Z))
  : outcome (bool * option (list Z)) :=
  match candidates with
  | [] => Ret (false, None)
  | scales :: rest =>
      r ← try_scales kernels scales;
      match r with
      | Some A => Ret (true, Some A)
      | None => search_scales kernels rest
      end
  end.

Definition check_fixing_opportunity (n : Z) (kernel_set : list Z)
  : outcome (bool * option (list Z)) :=
  let kernels := sorted kernel_set in
  max_scales ← map_outcome (max_scale n) kernels;
  let scale_ranges := (fun ms => range 1 (ms + 1)) <$> max_scales in
  search_scales kernels (cart_product scale_ranges).

(** ** Hypergraph construction and minimum vertex cover *)

(** A hyperedge is the tuple built by [tuple(q)] from a sorted list of four. *)
Definition edge : Type := Z * Z * Z * Z.

Definition edge_vertices (e : edge) : list Z :=
  let '(a, b, c, d) := e in [a; b; c; d].

(** A [for] loop whose body may raise. *)
Fixpoint foldl_outcome {A B : Type} (f : A -> B -> outcome A) (a : A) (l : list B)
  : outcome A :=
  match l with
  | [] => Ret a
  | x :: l' => a' ← f a x; foldl_outcome f a' l'
  end.

(** [pair_groups[k].append(p)] on a [defaultdict(list)]: a new key goes to
    the end, an old key keeps its place. *)
Fixpoint group_append (k : Z) (p : Z * Z) (groups : list (Z * list (Z * Z)))
  : list (Z * list (Z * Z)) :=
  match groups with
  | [] => [(k, [p])]
  | (k', ps) :: rest =>
      if bool_decide (k = k') then (k', ps ++ [p]) :: rest
      else (k', ps) :: group_append k p rest
  end.

Definition build_pair_groups (V : list Z) : outcome (list (Z * list (Z * Z))) :=
  foldl_outcome
    (fun groups p => k ← core p.1 p.2; Ret (group_append k p groups))
    [] (all_pairs V).

(** The body of the innermost loop over two pairs of one bucket. *)
Definition edge_of_pairs (p1 p2 : Z * Z) : option edge :=
  let vertices : gset Z := {[ p1.1; p1.2; p2.1; p2.2 ]} in
  if bool_decide (size vertices = 4%nat) then
    match sorted (elements vertices) with
    | [q0; q1; q2; q3] =>
        if negb (q0 * q3 =? q1 * q2) then Some (q0, q1, q2, q3) else None
    | _ => None
    end
  else None.

Definition bucket_edges (pairs : list (Z * Z)) : list edge :=
  if (length pairs <? 2)%nat then []
  else omap (fun pp => edge_of_pairs pp.1 pp.2) (all_pairs pairs).

Definition build_edges (groups : list (Z * list (Z * Z))) : list edge :=
  groups ≫= (fun kp => bucket_edges kp.2).

(** [deg = Counter(); for e in edges: deg.update(e)] *)
Definition deg_of (deg : gmap Z Z) (x : Z) : Z := default 0 (deg !! x).

Definition counter_update (deg : gmap Z Z) (e : edge) : gmap Z Z :=
  foldl (fun d v => <[v := deg_of d v + 1]> d) deg (edge_vertices e).

Definition degree_table (edges : list edge) : gmap Z Z :=
  foldl counter_update ∅ edges.

Definition covered (cover : gset Z) (e : edge) : bool :=
  existsb (fun v => bool_decide (v ∈ cover)) (edge_vertices e).

(** [backtrack(edge_idx, cover)].  [rest] is the slice [edges[edge_idx:]]
    that the scan walks; the state is the pair of the mutable set [cover]
    and the cell [min_cover[0]], passed in and returned. *)
Fixpoint backtrack (deg : gmap Z Z) (rest : list edge) (st : gset Z * gset Z)
  {struct rest} : outcome (gset Z * gset Z) :=
  if (size st.2 <=? size st.1)%nat then Ret st
  else
    (fix scan (l : list edge) : outcome (gset Z * gset Z) :=
       match l with
       | [] =>
           if (size st.1 <? size st.2)%nat then Ret (st.1, st.1) else Ret st
       | e :: l' =>
           if covered st.1 e then scan l'
           else
             foldl_outcome
               (fun s v =>
                  s' ← backtrack deg l' ({[v]} ∪ s.1, s.2);
                  if bool_decide (v ∈ s'.1) then Ret (s'.1 ∖ {[v]}, s'.2)
                  else Raise KeyError)
               st
               (sorted_by (fun x y => deg_of deg y <=? deg_of deg x) (edge_vertices e))
       end) rest.

(** The loop body [cover.add(v); backtrack(edge_idx + 1, cover); cover.remove(v)]
    and the scan for the first uncovered edge, named on their own so that
    [backtrack] can be unfolded one call at a time. *)
Definition branch_step (deg : gmap Z Z) (l' : list edge) (s : gset Z * gset Z) (v : Z)
  : outcome (gset Z * gset Z) :=
  s' ← backtrack deg l' ({[v]} ∪ s.1, s.2);
  if bool_decide (v ∈ s'.1) then Ret (s'.1 ∖ {[v]}, s'.2) else Raise KeyError.

Fixpoint scan (deg : gmap Z Z) (st : gset Z * gset Z) (l : list edge)
  : outcome (gset Z * gset Z) :=
  match l with
  | [] => if (size st.1 <? size st.2)%nat then Ret (st.1, st.1) else Ret st
  | e :: l' =>
      if covered st.1 e then scan deg st l'
      else foldl_outcome (branch_step deg l') st
             (sorted_by (fun x y => deg_of deg y <=? deg_of deg x) (edge_vertices e))
  end.

Definition compute_f_sf (n : Z) : outcome (Z * list edge * gset Z) :=
  V ← sieve_square_free n;
  groups ← build_pair_groups V;
  let edges := build_edges groups in
  match edges with
  | [] => Ret (Z.of_nat (length V), edges, ∅)
  | _ :: _ =>
      let deg := degree_table edges in
      s ← backtrack deg (drop 0 edges) (∅, list_to_set V);
      Ret (Z.of_nat (length V) - Z.of_nat (size s.2), edges, s.2)
  end.

(** [set(edge)] as [check_fixing_opportunity] receives it. *)
Definition edge_set (e : edge) : list Z :=
  elements (list_to_set (edge_vertices e) : gset Z).

(** The loop of [main] over [edges[:100]] that sets [fixable]:
    [can_fix, _ = check_fixing_opportunity(n, set(edge))], and a [break]
    at the first [can_fix]. *)
Fixpoint fixable_scan (n : Z) (edges : list edge) : outcome bool :=
  match edges with
  | [] => Ret false
  | e :: rest =>
      check_fixing_opportunity n (edge_set e) ≫=
        fun r : bool * option (list Z) =>
          let '(can_fix, _) := r in
          if can_fix then Ret true else fixable_scan n rest
  end.

Definition fixable (n : Z) (edges : list edge) : outcome bool :=
  fixable_scan n (take 100 edges).

(** ** Vocabulary of the properties *)

Definition square_free (x : Z) : Prop :=
  forall k : Z, 1 < k -> ~ (k * k | x).

Definition perfect_square (x : Z) : Prop := exists r : Z, x = r * r.

Definition list_prod (l : list Z) : Z := foldr Z.mul 1 l.

(** [C] has a vertex in every edge of [es]. *)
Definition is_cover (C : gset Z) (es : list edge) : Prop :=
  forall e, e ∈ es -> exists v, v ∈ edge_vertices e /\ v ∈ C.

(** An admissibility-violating quadruple over the vertices of bound [n]. *)
Definition violating (n : Z) (e : edge) : Prop :=
  let '(a, b, c, d) := e in
  a < b /\ b < c /\ c < d
  /\ Forall (fun v => 1 <= v <= n /\ square_free v) [a; b; c; d]
  /\ perfect_square (a * b * c * d)
  /\ a * d <> b * c.

(** What the loop state [(kernel, d, temp)] maintains while factoring [m]. *)
Record kernel_inv (m kernel d temp : Z) : Prop := {
  inv_kernel_pos : 1 <= kernel;
  inv_temp_pos : 1 <= temp;
  inv_d_ge : 2 <= d;
  inv_no_small : forall q, 2 <= q < d -> ~ (q | temp);
  inv_square_free : square_free kernel;
  inv_coprime : Z.coprime kernel temp;
  inv_divide : (kernel * temp | m);
  inv_full : forall c, (c | m) -> Z.coprime c (kernel * temp) -> Z.abs c = 1
}.

(** What the returned kernel [k] of [m] satisfies. *)
Record kernel_post (m k : Z) : Prop := {
  post_pos : 1 <= k;
  post_divide : (k | m);
  post_square_free : square_free k;
  post_full : forall c, (c | m) -> Z.coprime c k -> Z.abs c = 1
}.

(** Every bucket holds, in generation order, pairs already generated, and
    all pairs of a bucket have the bucket's key as core. *)
Definition groups_ok (done_pairs : list (Z * Z)) (groups : list (Z * list (Z * Z))) : Prop :=
  forall k pairs, (k, pairs) ∈ groups ->
    pairs `sublist_of` done_pairs /\ forall p, p ∈ pairs -> core p.1 p.2 = Ret k.

(** The vertex pairs of one bucket: ascending pairs of positive square-free
    integers with one common core. *)
Definition bucket_ok (k : Z) (pairs : list (Z * Z)) : Prop :=
  NoDup pairs
  /\ forall p, p ∈ pairs ->
       1 <= p.1 /\ p.1 < p.2 /\ square_free p.1 /\ square_free p.2
       /\ core p.1 p.2 = Ret k.

(** What a call [backtrack(edge_idx, cover)] on the slice [rest] does to the
    best cover: it never grows; if it changes, the new one extends [cover],
    covers [rest] and adds only vertices of [rest]; and it is no larger than
    any extension of [cover] that covers [rest]. *)
Record search_post (cover best : gset Z) (rest : list edge) (best' : gset Z) : Prop := {
  search_size : (size best' <= size best)%nat;
  search_sound :
    best' = best
    \/ (cover ⊆ best' /\ is_cover best' rest
        /\ forall x, x ∈ best' -> x ∈ cover \/ exists e, e ∈ rest /\ x ∈ edge_vertices e);
  search_optimal :
    forall C : gset Z, cover ⊆ C -> is_cover C rest -> (size best' <= size C)%nat
}.

(** The result of [compute_f_sf(n)] in terms of the vertex list [V], the
    buckets [groups] and the cover that the search ends with. *)
Record f_sf_result (n : Z) (V : list Z) (groups : list (Z * list (Z * Z)))
    (cover : gset Z) : Prop := {
  res_sieve : sieve_square_free n = Ret V;
  res_groups : build_pair_groups V = Ret groups;
  res_groups_ok : groups_ok (all_pairs V) groups;
  res_value :
    compute_f_sf n
    = Ret (Z.of_nat (length V) - Z.of_nat (size cover), build_edges groups, cover);
  res_vertices : cover ⊆ list_to_set V;
  res_cover : is_cover cover (build_edges groups);
  res_minimum :
    forall C : gset Z, is_cover C (build_edges groups) -> (size cover <= size C)%nat
}.

(** Every generated pair sits in the bucket of its core, and no key is
    held twice. *)
Definition groups_full (done_pairs : list (Z * Z)) (groups : list (Z * list (Z * Z))) : Prop :=
  NoDup groups.*1
  /\ forall p, p ∈ done_pairs ->
       exists k pairs, core p.1 p.2 = Ret k /\ (k, pairs) ∈ groups /\ p ∈ pairs.

(** No four elements of [S] form a violating quadruple. *)
Definition quad_free (S : list Z) : Prop :=
  forall a b c d, a ∈ S -> b ∈ S -> c ∈ S -> d ∈ S ->
    a < b -> b < c -> c < d ->
    is_square (a * b * c * d) = true -> a * d = b * c.

(** What one accepted candidate looks like. *)
Definition fix_found (kernels scales A : list Z) : Prop :=
  A = zip_with (fun k s => k * s * s) kernels scales
  /\ Exists (fun s => s <> 1) scales
  /\ NoDup A
  /\ exists a0 a1 a2 a3 rest,
       sorted A = a0 :: a1 :: a2 :: a3 :: rest
       /\ perfect_square (a0 * a1 * a2 * a3)
       /\ a0 * a3 = a1 * a2.

(** The number of times [v] occurs in [l]. *)
Definition occurrences (v : Z) (l : list Z) : Z :=
  Z.of_nat (length (filter (fun w => w = v) l)).

(** The number of entries of [l] equal to [e]. *)
Definition count_edge (e : edge) (l : list edge) : nat :=
  length (filter (fun x => x = e) l).

(** ** The functions on the inputs of the report transcript *)

Example sieve_30 :
  sieve_square_free 30 = Ret [1; 2; 3; 5; 6; 7; 10; 11; 13; 14; 15; 17; 19; 21; 22; 23; 26; 29; 30].
Proof. vm_compute. reflexivity. Qed.

Example kernel_126 : square_free_kernel 126 = Ret 42.
Proof. vm_compute. reflexivity. Qed.

Example fixing_210 :
  check_fixing_opportunity 210 [3; 5; 14; 210] = Ret (true, Some [3; 5; 126; 210]).
Proof. vm_compute. reflexivity. Qed.

Example admissible_A : check_admissible [3; 5; 126; 210] = true.
Proof. vm_compute. reflexivity. Qed.

Example admissible_K : check_admissible [3; 5; 14; 210] = false.
Proof. vm_compute. reflexivity. Qed.

Example f_sf_15 :
  compute_f_sf 15 = Ret (10, [(1, 6, 10, 15); (1, 6, 10, 15); (1, 6, 10, 15)], {[ 1 ]}).
Proof. vm_compute. reflexivity. Qed.

(** ** Properties of the sequence helpers *)

Section sorting.
Context {A : Type} (le : A -> A -> bool).

Lemma insert_by_perm (x : A) (l : list A) : insert_by le x l ≡ₚ x :: l.
Proof.
  induction l as [|y l IH]; simpl; [done|].
  destruct (le x y); [done|].
  rewrite IH. apply Permutation_swap.
Qed.

Lemma sorted_by_perm (l : list A) : sorted_by le l ≡ₚ l.
Proof.
  induction l as [|x l IH]; simpl; [done|].
  by rewrite insert_by_perm, IH.
Qed.

Lemma sorted_by_length (l : list A) : length (sorted_by le l) = length l.
Proof. apply Permutation_length, sorted_by_perm. Qed.

Lemma elem_of_sorted_by (x : A) (l : list A) : x ∈ sorted_by le l ↔ x ∈ l.
Proof. by rewrite sorted_by_perm. Qed.
End sorting.

Lemma insert_by_leb_sorted (x : Z) (l : list Z) :
  StronglySorted Z.le l -> StronglySorted Z.le (insert_by Z.leb x l).
Proof.
  induction 1 as [|y l Hl IH Hy]; simpl.
  - repeat constructor.
  - destruct (Z.leb_spec x y) as [Hxy|Hxy].
    + constructor; [by constructor|].
      constructor; [done|].
      eapply Forall_impl; [exact Hy|]. intros z Hz. simpl in Hz. lia.
    + constructor; [done|].
      rewrite insert_by_perm. constructor; [lia|done].
Qed.

Lemma sorted_StronglySorted (l : list Z) : StronglySorted Z.le (sorted l).
Proof.
  induction l as [|x l IH]; simpl; [constructor|].
  by apply insert_by_leb_sorted.
Qed.

(** [sorted] forgets the order in which a set is enumerated. *)
Lemma sorted_perm_eq (l1 l2 : list Z) : l1 ≡ₚ l2 -> sorted l1 = sorted l2.
Proof.
  intros Hp. apply (StronglySorted_unique Z.le).
  - apply sorted_StronglySorted.
  - apply sorted_StronglySorted.
  - unfold sorted. by rewrite !sorted_by_perm.
Qed.

Lemma sorted_eq_perm (l1 l2 : list Z) : sorted l1 = sorted l2 -> l1 ≡ₚ l2.
Proof.
  intros Heq. rewrite <- (sorted_by_perm Z.leb l1), <- (sorted_by_perm Z.leb l2).
  fold (sorted l1). fold (sorted l2). by rewrite Heq.
Qed.

Lemma check_admissible_perm (A1 A2 : list Z) :
  A1 ≡ₚ A2 -> check_admissible A1 = check_admissible A2.
Proof. intros Hp. unfold check_admissible. by rewrite (sorted_perm_eq A1 A2). Qed.

Lemma check_fixing_opportunity_perm (n : Z) (K1 K2 : list Z) :
  K1 ≡ₚ K2 -> check_fixing_opportunity n K1 = check_fixing_opportunity n K2.
Proof. intros Hp. unfold check_fixing_opportunity. by rewrite (sorted_perm_eq K1 K2). Qed.

(** ** Square-free integers *)

Lemma is_square_spec (n : Z) : is_square n = true <-> perfect_square n.
Proof.
  unfold is_square, perfect_square. split.
  - destruct (Z.ltb_spec n 0) as [_|_]; [done|].
    intros Hr%Z.eqb_eq. eauto.
  - intros [r ->]. destruct (Z.ltb_spec (r * r) 0) as [Hneg|_]; [nia|].
    apply Z.eqb_eq.
    replace (r * r) with (Z.abs r * Z.abs r) by (rewrite <- Z.abs_mul; apply Z.abs_eq; nia).
    rewrite Z.sqrt_square by lia. done.
Qed.

Lemma square_free_2 : square_free 2.
Proof.
  intros k Hk Hd. apply Z.divide_pos_le in Hd; [nia|lia].
Qed.

(** ** The core reduction on the diagonal *)

Lemma core_same_argument (a : Z) : a <> 0 -> core a a = Ret 1.
Proof.
  intros Ha. unfold core. rewrite Z.gcd_diag.
  assert (Hsq : Z.abs a * Z.abs a = a * a) by (rewrite <- Z.abs_mul; apply Z.abs_eq; nia).
  rewrite Hsq.
  destruct (Z.eqb_spec (a * a) 0) as [H0|H0]; [nia|].
  by rewrite Z.div_same.
Qed.

(** C5, as stated, fails: 2 is a square-free positive integer and
    [core(2, 2)] is 1, not 2. *)
Lemma core_diag_counterexample :
  0 < 2 /\ square_free 2 /\ core 2 2 = Ret 1 /\ core 2 2 <> Ret 2.
Proof.
  split; [lia|]. split; [apply square_free_2|]. by split.
Qed.

(** C5 (amended): for every positive integer [a], square-free or not,
    [core(a, a)] returns 1, because [gcd(a, a) = a] and the quotient
    [a*a // (a*a)] is 1. *)
Theorem core_diag (a : Z) : 0 < a -> core a a = Ret 1.
Proof. intros Ha. apply core_same_argument. lia. Qed.

Lemma core_diag_witness : 0 < 6 /\ core 6 6 = Ret 1.
Proof. split; [lia | apply (core_diag 6); lia]. Defined.

(** ** The documented pair of Theorem 3 *)

(** C3, as stated, fails on its first set: [{3, 5, 126, 210}] is admissible,
    its cross products [3 * 210] and [5 * 126] being equal. *)
Lemma check_admissible_A_counterexample :
  check_admissible (elements ({[ 3; 5; 126; 210 ]} : gset Z)) = true
  /\ check_admissible [3; 5; 126; 210] <> false
  /\ 3 * 210 = 5 * 126.
Proof. by vm_compute. Qed.

(** C3 (amended): on every enumeration of [{3, 5, 126, 210}] [check_admissible]
    returns true, and on every enumeration of [{3, 5, 14, 210}] it returns
    false; both products are perfect squares, the cross products are equal
    in the first set ([3 * 210 = 5 * 126]) and differ in the second
    ([3 * 210 <> 5 * 14]). *)
Theorem check_admissible_theorem3 (A K : list Z) :
  A ≡ₚ [3; 5; 126; 210] -> K ≡ₚ [3; 5; 14; 210] ->
  check_admissible A = true /\ check_admissible K = false
  /\ is_square (3 * 5 * 126 * 210) = true /\ 3 * 210 = 5 * 126
  /\ is_square (3 * 5 * 14 * 210) = true /\ 3 * 210 <> 5 * 14.
Proof.
  intros HA HK.
  rewrite (check_admissible_perm _ _ HA), (check_admissible_perm _ _ HK).
  by vm_compute.
Qed.

Lemma check_admissible_theorem3_witness :
  check_admissible (elements ({[ 3; 5; 126; 210 ]} : gset Z)) = true
  /\ check_admissible (elements ({[ 3; 5; 14; 210 ]} : gset Z)) = false.
Proof.
  assert (HA : elements ({[ 3; 5; 126; 210 ]} : gset Z) ≡ₚ [3; 5; 126; 210]).
  { apply sorted_eq_perm. vm_compute. reflexivity. }
  assert (HK : elements ({[ 3; 5; 14; 210 ]} : gset Z) ≡ₚ [3; 5; 14; 210]).
  { apply sorted_eq_perm. vm_compute. reflexivity. }
  destruct (check_admissible_theorem3 _ _ HA HK) as (H1 & H2 & _).
  exact (conj H1 H2).
Defined.

(** C4: on every enumeration of the kernel set [{3, 5, 14, 210}] with bound
    210 the search reports a fix, and the reported set is admissible. *)
Theorem check_fixing_opportunity_roundtrip (K : list Z) :
  K ≡ₚ [3; 5; 14; 210] ->
  exists A : list Z,
    check_fixing_opportunity 210 K = Ret (true, Some A)
    /\ check_admissible A = true.
Proof.
  intros HK. rewrite (check_fixing_opportunity_perm _ _ _ HK).
  exists [3; 5; 126; 210]. by vm_compute.
Qed.

Lemma check_fixing_opportunity_roundtrip_witness :
  exists A : list Z,
    check_fixing_opportunity 210 (elements ({[ 3; 5; 14; 210 ]} : gset Z)) = Ret (true, Some A)
    /\ check_admissible A = true.
Proof.
  apply check_fixing_opportunity_roundtrip.
  apply sorted_eq_perm. vm_compute. reflexivity.
Defined.

(** ** A kernel above the bound leaves nothing to search *)

Lemma scale_loop_terminates (n k : Z) (fuel : nat) (s : Z) :
  1 <= k -> 1 <= s -> n + 2 - s <= Z.of_nat fuel -> (1 <= fuel)%nat ->
  exists r : Z, scale_loop fuel n k s = Ret r.
Proof.
  intros Hk. revert s. induction fuel as [|fuel IH]; intros s Hs Hfuel Hpos; [lia|].
  simpl. destruct (Z.leb_spec (k * s * s) n) as [Hle|Hgt]; [|eauto].
  apply IH; [lia| |]; nia.
Qed.

Lemma max_scale_terminates (n k : Z) : 1 <= k -> exists ms : Z, max_scale n k = Ret ms.
Proof.
  intros Hk. unfold max_scale.
  destruct (scale_loop_terminates n k (Z.to_nat n + 1) 1) as [r Hr]; [lia..|].
  rewrite Hr. simpl. eauto.
Qed.

Lemma max_scale_above (n k : Z) : n < k -> max_scale n k = Ret 0.
Proof.
  intros Hk. unfold max_scale.
  replace (Z.to_nat n + 1)%nat with (S (Z.to_nat n)) by lia. simpl.
  destruct (Z.leb_spec (k * 1 * 1) n); [lia|done].
Qed.

(** The fuel of [max_scale] is exact: the model runs out of it only on the
    inputs on which the Python loop never ends. *)
Lemma scale_loop_diverges (n k : Z) (fuel : nat) (s : Z) :
  k <= 0 -> k <= n -> 1 <= s -> scale_loop fuel n k s = OutOfFuel.
Proof.
  intros Hk Hn. revert s. induction fuel as [|fuel IH]; intros s Hs; simpl; [done|].
  destruct (Z.leb_spec (k * s * s) n) as [_|Hgt]; [apply IH; lia|].
  assert (Hss : 1 <= s * s) by nia.
  assert (k * s * s <= k); [|lia].
  rewrite <- Z.mul_assoc. nia.
Qed.

Lemma max_scale_OutOfFuel (n k : Z) : max_scale n k = OutOfFuel <-> k <= 0 /\ k <= n.
Proof.
  split.
  - intros Hout. destruct (Z.lt_ge_cases n k) as [Hnk|Hnk].
    + by rewrite max_scale_above in Hout.
    + destruct (Z.lt_ge_cases 0 k) as [Hk|Hk]; [|done].
      destruct (max_scale_terminates n k) as [ms Hms]; [lia|]. congruence.
  - intros [Hk Hn]. unfold max_scale. by rewrite scale_loop_diverges.
Qed.

Lemma map_outcome_Ret {A B : Type} (f : A -> outcome B) (l : list A) :
  Forall (fun x => exists y, f x = Ret y) l ->
  exists ys, map_outcome f l = Ret ys /\ Forall2 (fun x y => f x = Ret y) l ys.
Proof.
  induction 1 as [|x l [y Hy] _ (ys & Hys & IH)]; simpl.
  - exists []. by split.
  - exists (y :: ys). rewrite Hy. simpl. rewrite Hys. simpl. split; [done|by constructor].
Qed.

Lemma cart_product_nil {A : Type} (ls : list (list A)) :
  [] ∈ ls -> cart_product ls = [].
Proof.
  induction ls as [|l ls IH]; [by intros ?%elem_of_nil|].
  intros [<-|Hin]%elem_of_cons; simpl; [done|].
  rewrite IH by done. clear. induction l as [|x l IHl]; [done|].
  by rewrite bind_cons, IHl.
Qed.

(** C10: when some kernel of [K] exceeds the bound [n] (and all kernels are
    positive, so that every scale loop ends), the search returns
    [(False, None)]: the scale range of that kernel is empty and no
    candidate set is ever formed. *)
Theorem check_fixing_opportunity_above (n : Z) (K : list Z) :
  Forall (fun k => 0 < k) K -> Exists (fun k => n < k) K ->
  check_fixing_opportunity n K = Ret (false, None).
Proof.
  intros Hpos Hbig. unfold check_fixing_opportunity.
  assert (Hpos' : Forall (fun k => exists ms, max_scale n k = Ret ms) (sorted K)).
  { apply Forall_forall. intros k Hk%elem_of_sorted_by.
    apply max_scale_terminates. rewrite Forall_forall in Hpos. specialize (Hpos k Hk). lia. }
  destruct (map_outcome_Ret _ _ Hpos') as (mss & -> & Hmss). simpl.
  rewrite cart_product_nil; [done|].
  apply Exists_exists in Hbig as (k & Hk & Hnk).
  apply (elem_of_sorted_by Z.leb) in Hk.
  apply list_elem_of_lookup in Hk as [i Hi].
  destruct (Forall2_lookup_l _ _ _ _ _ Hmss Hi) as (ms & Hms & Hret).
  rewrite (max_scale_above n k Hnk) in Hret. injection Hret as <-.
  apply list_elem_of_lookup. exists i.
  by rewrite list_lookup_fmap, Hms.
Qed.

Lemma check_fixing_opportunity_above_witness :
  check_fixing_opportunity 100 [3; 5; 14; 210] = Ret (false, None).
Proof.
  apply check_fixing_opportunity_above.
  - repeat constructor.
  - apply Exists_exists. exists 210. split; [|lia].
    repeat (first [ apply list_elem_of_here | apply list_elem_of_further ]).
Defined.

(** ** The sieve *)

Lemma mark_list_lookup (js : list Z) (t : list bool) (i : nat) :
  foldl (fun acc j => <[Z.to_nat j := false]> acc) t js !! i = Some true
  <-> t !! i = Some true /\ i ∉ (Z.to_nat <$> js).
Proof.
  revert t. induction js as [|j js IH]; intros t; simpl.
  - split; [|tauto]. intros Ht. split; [done|]. apply not_elem_of_nil.
  - rewrite IH, not_elem_of_cons.
    destruct (decide (Z.to_nat j = i)) as [<-|Hne].
    + split; [|by intros (_ & ? & _)]. intros [Ht _]. exfalso.
      destruct (decide (Z.to_nat j < length t)%nat) as [Hlt|Hge].
      * by rewrite list_lookup_insert_eq in Ht.
      * rewrite list_insert_ge in Ht by lia. apply lookup_lt_Some in Ht. lia.
    + rewrite list_lookup_insert_ne by done. intuition congruence.
Qed.

Lemma elem_of_range_step (sq n j : Z) :
  0 < sq -> j ∈ range_step sq (n + 1) sq <-> (sq | j) /\ sq <= j <= n.
Proof.
  intros Hsq. unfold range_step.
  replace (n + 1 - sq + sq - 1) with n by lia.
  rewrite list_elem_of_fmap. split.
  - intros (k & -> & [Hk0 Hk]%elem_of_seqZ). split.
    + exists (k + 1). lia.
    + split; [nia|].
      pose proof (Z.mul_div_le n sq Hsq). nia.
  - intros ([c ->] & Hlo & Hhi). exists (c - 1). split; [lia|].
    apply elem_of_seqZ. split; [nia|].
    assert (c <= n `div` sq) by (apply Z.div_le_lower_bound; lia). lia.
Qed.

Lemma mark_multiples_lookup (n sq x : Z) (t : list bool) :
  0 < sq -> 0 <= x ->
  mark_multiples n sq t !! Z.to_nat x = Some true
  <-> t !! Z.to_nat x = Some true /\ ~ ((sq | x) /\ sq <= x <= n).
Proof.
  intros Hsq Hx. unfold mark_multiples. rewrite mark_list_lookup.
  rewrite list_elem_of_fmap. split; intros [Ht Hno]; (split; [done|]).
  - intros Hdiv. apply Hno. exists x. split; [done|]. by apply elem_of_range_step.
  - intros (j & Hj & Hin). apply elem_of_range_step in Hin as Hin'; [|done].
    assert (j = x) as -> by lia. tauto.
Qed.

Lemma sieve_fold_lookup (n x : Z) (ds : list Z) (t : list bool) :
  Forall (fun i => 0 < i) ds -> 0 <= x ->
  foldl (fun acc i => mark_multiples n (i * i) acc) t ds !! Z.to_nat x = Some true
  <-> t !! Z.to_nat x = Some true
      /\ forall i, i ∈ ds -> ~ ((i * i | x) /\ i * i <= x <= n).
Proof.
  intros His Hx. revert t. induction His as [|i ds Hi _ IH]; intros t; simpl.
  - split; [|tauto]. intros Ht. split; [done|]. by intros i ?%elem_of_nil.
  - rewrite IH, mark_multiples_lookup by nia. split.
    + intros [[Ht Hno] Hrest]. split; [done|].
      intros j [->|Hj]%elem_of_cons; auto.
    + intros [Ht Hall]. split; [split; [done|]|].
      * apply Hall, list_elem_of_here.
      * intros j Hj. by apply Hall, list_elem_of_further.
Qed.

Lemma sieve_table_lookup (n r x : Z) :
  0 <= x <= n ->
  sieve_table n r !! Z.to_nat x = Some true
  <-> forall i, 2 <= i <= r -> ~ ((i * i | x) /\ i * i <= x).
Proof.
  intros Hx. unfold sieve_table, range. rewrite sieve_fold_lookup; [|apply Forall_seqZ; lia|lia].
  rewrite lookup_replicate_2 by lia. split.
  - intros [_ Hall] i Hi [Hdiv Hle]. apply (Hall i); [apply elem_of_seqZ; lia|].
    split; [done|lia].
  - intros Hall. split; [done|]. intros i Hi%elem_of_seqZ [Hdiv Hle].
    apply (Hall i); [lia|]. split; [done|lia].
Qed.

(** A loop bound above the integer square root marks nothing more, so a
    float root that rounds up leaves the table unchanged. *)
Lemma sieve_table_overshoot (n r x : Z) :
  0 <= x <= n -> Z.sqrt n <= r ->
  sieve_table n r !! Z.to_nat x = Some true
  <-> sieve_table n (Z.sqrt n) !! Z.to_nat x = Some true.
Proof.
  intros Hx Hr. rewrite !sieve_table_lookup by done. split.
  - intros Hall i Hi. apply Hall. lia.
  - intros Hall i Hi [Hdiv Hle].
    destruct (Z.le_gt_cases i (Z.sqrt n)) as [Hsmall|Hbig].
    + apply (Hall i); [lia|done].
    + pose proof (Z.sqrt_spec n ltac:(lia)) as [_ Hs]. simpl in Hs.
      pose proof (Z.sqrt_nonneg n) as Hs0.
      assert (Z.succ (Z.sqrt n) * Z.succ (Z.sqrt n) <= i * i) by nia. lia.
Qed.

(** The vertex set: the sieve returns exactly the square-free integers of
    [[1, n]]. *)
Lemma elem_of_sieve (n x : Z) (V : list Z) :
  sieve_square_free n = Ret V -> x ∈ V <-> 1 <= x <= n /\ square_free x.
Proof.
  unfold sieve_square_free, int_sqrt.
  destruct (Z.ltb_spec n 0) as [Hneg|Hn]; [done|]. simpl.
  intros [= <-]. rewrite list_elem_of_filter. unfold range. rewrite elem_of_seqZ.
  split.
  - intros [Ht Hx]. split; [lia|].
    rewrite sieve_table_lookup in Ht by lia.
    intros k Hk Hdiv. apply (Ht k); [|split; [done|]].
    + split; [lia|]. apply Z.sqrt_le_square; [lia..|].
      apply Z.divide_pos_le in Hdiv; lia.
    + apply Z.divide_pos_le in Hdiv; lia.
  - intros [Hx Hsf]. split; [|lia].
    rewrite sieve_table_lookup by lia.
    intros i Hi [Hdiv _]. apply (Hsf i); [lia|done].
Qed.

Lemma StronglySorted_filter {A : Type} (R : relation A) (P : A -> Prop)
  `{!forall x, Decision (P x)} (l : list A) :
  StronglySorted R l -> StronglySorted R (filter P l).
Proof.
  induction 1 as [|x l Hl IH Hx]; [constructor|].
  rewrite filter_cons. destruct (decide (P x)); [|done].
  constructor; [done|].
  apply Forall_forall. intros y [_ Hy]%list_elem_of_filter.
  rewrite Forall_forall in Hx. by apply Hx.
Qed.

Lemma StronglySorted_seqZ (m n : Z) : StronglySorted Z.lt (seqZ m n).
Proof.
  destruct (Z.le_gt_cases n 0) as [Hn|Hn]; [rewrite seqZ_nil by done; constructor|].
  rewrite <- (Z2Nat.id n) by lia. generalize (Z.to_nat n) as k. clear. intros k. revert m.
  induction k as [|k IH]; intros m; [rewrite seqZ_nil by lia; constructor|].
  rewrite seqZ_cons by lia. constructor.
  - replace (Z.pred (Z.of_nat (S k))) with (Z.of_nat k) by lia. apply IH.
  - apply Forall_forall. intros y Hy%elem_of_seqZ. lia.
Qed.

Lemma square_free_1 : square_free 1.
Proof. intros k Hk Hd. apply Z.divide_pos_le in Hd; [nia|lia]. Qed.

Lemma sieve_strictly_sorted (n : Z) (V : list Z) :
  sieve_square_free n = Ret V -> StronglySorted Z.lt V.
Proof.
  unfold sieve_square_free, int_sqrt.
  destruct (Z.ltb_spec n 0); [done|]. simpl. intros [= <-].
  apply StronglySorted_filter, StronglySorted_seqZ.
Qed.

Lemma sieve_square_free_Ret (n : Z) : 0 <= n -> exists V, sieve_square_free n = Ret V.
Proof.
  intros Hn. unfold sieve_square_free, int_sqrt.
  destruct (Z.ltb_spec n 0); [lia|]. simpl. eauto.
Qed.

(** C8: for [n >= 1] the sieve returns a strictly increasing sequence of
    integers of [[1, n]] that contains 1 and no value divisible by a perfect
    square greater than 1. *)
Theorem sieve_square_free_sound (n : Z) :
  1 <= n ->
  exists V : list Z,
    sieve_square_free n = Ret V
    /\ StronglySorted Z.lt V
    /\ (forall x, x ∈ V -> 1 <= x <= n)
    /\ 1 ∈ V
    /\ (forall x k, x ∈ V -> 1 < k -> ~ (k * k | x)).
Proof.
  intros Hn.
  destruct (sieve_square_free_Ret n) as [V HV]; [lia|]. exists V. split; [done|].
  pose proof (fun x => elem_of_sieve n x V HV) as Hin.
  split; [|split; [|split]].
  - by apply (sieve_strictly_sorted n).
  - intros x Hx. by apply Hin in Hx as [? _].
  - apply Hin. split; [lia|apply square_free_1].
  - intros x k Hx Hk. apply Hin in Hx as [_ Hsf]. by apply Hsf.
Qed.

Lemma sieve_square_free_sound_witness :
  exists V : list Z,
    sieve_square_free 30 = Ret V
    /\ StronglySorted Z.lt V
    /\ (forall x, x ∈ V -> 1 <= x <= 30)
    /\ 1 ∈ V
    /\ (forall x k, x ∈ V -> 1 < k -> ~ (k * k | x)).
Proof. apply (sieve_square_free_sound 30). lia. Defined.

(** ** The square-free kernel *)

Lemma coprime_divide_r (a b c : Z) : Z.coprime a b -> (c | b) -> Z.coprime a c.
Proof.
  unfold Z.coprime. intros Hab Hc.
  assert (Hg : (Z.gcd a c | 1)).
  { rewrite <- Hab. apply Z.gcd_greatest; [apply Z.gcd_divide_l|].
    etrans; [apply Z.gcd_divide_r|done]. }
  apply Z.divide_1_r in Hg. pose proof (Z.gcd_nonneg a c). lia.
Qed.

Lemma coprime_sym (a b : Z) : Z.coprime a b -> Z.coprime b a.
Proof. unfold Z.coprime. by rewrite Z.gcd_comm. Qed.

Lemma coprime_not_divide (a b d : Z) : Z.coprime a b -> 1 < d -> (d | b) -> ~ (d | a).
Proof.
  unfold Z.coprime. intros Hab Hd Hdb Hda.
  assert (Hg : (d | 1)) by (rewrite <- Hab; by apply Z.gcd_greatest).
  apply Z.divide_1_r in Hg. lia.
Qed.

Lemma square_free_mul_prime (a p : Z) :
  square_free a -> Z.prime p -> ~ (p | a) -> square_free (a * p).
Proof.
  intros Ha Hp Hpa k Hk Hdiv.
  pose proof (Z.prime_ge_2 _ Hp) as Hp2.
  pose proof (Z.gcd_nonneg k p) as Hg0.
  destruct (Z.divide_prime_r (Z.gcd k p) p Hp (Z.gcd_divide_r k p))
    as [Hg|[Hg|[Hg|Hg]]]; [lia|lia| |].
  - apply (Ha k Hk). apply (Z.gauss _ p); [by rewrite (Z.mul_comm a p) in Hdiv|].
    by apply Z.coprime_mul_l.
  - assert (Hpk : (p | k)) by (rewrite <- Hg; apply Z.gcd_divide_l).
    destruct Hpk as [c ->]. apply Hpa.
    apply (Z.mul_divide_cancel_r _ _ p); [lia|].
    etrans; [|exact Hdiv]. exists (c * c). lia.
Qed.

Lemma strip_factor_spec (fuel : nat) (d temp : Z) :
  2 <= d -> 1 <= temp -> temp <= Z.of_nat fuel ->
  exists t' : Z,
    strip_factor fuel d temp = Ret t'
    /\ 1 <= t' <= temp
    /\ (t' | temp)
    /\ ~ (d | t')
    /\ ((d | temp) -> (d * t' | temp))
    /\ (forall c, Z.coprime c d -> Z.coprime c t' -> Z.coprime c temp).
Proof.
  intros Hd. revert temp. induction fuel as [|fuel IH]; intros temp Htemp Hfuel; [lia|].
  simpl. destruct (Z.eqb_spec (temp `mod` d) 0) as [Hmod|Hmod].
  - apply Z.mod_divide in Hmod as Hdiv; [|lia].
    destruct Hdiv as [q Hq].
    assert (Hquot : temp `div` d = q) by (subst temp; apply Z.div_mul; lia).
    rewrite Hquot.
    destruct (IH q) as (t' & Hret & Hrange & Hdivq & Hnd & Hmul & Hcop); [nia..|].
    exists t'. split; [done|]. split; [nia|].
    assert (Hdt : (d * t' | temp)).
    { subst temp. rewrite (Z.mul_comm q d). by apply Z.mul_divide_mono_l. }
    split; [|split; [done|split; [done|]]].
    + etrans; [|exact Hdt]. apply Z.divide_factor_r.
    + intros c Hcd Hct. subst temp. apply Z.coprime_mul_r; auto.
  - exists temp. split; [done|]. split; [lia|]. split; [done|].
    assert (Hnd : ~ (d | temp)).
    { intros Hdiv. apply Hmod. apply Z.mod_divide; [lia|done]. }
    split; [done|]. split; [done|]. auto.
Qed.

Lemma kernel_inv_init (m : Z) : 1 <= m -> kernel_inv m 1 2 m.
Proof.
  intros Hm. split; try lia.
  - apply square_free_1.
  - apply Z.coprime_1_l.
  - by rewrite Z.mul_1_l.
  - intros c Hc Hcop. rewrite Z.mul_1_l in Hcop. unfold Z.coprime in Hcop.
    rewrite <- Z.gcd_abs_l in Hcop.
    assert (Habs : (Z.abs c | m)) by by apply Z.divide_abs_l.
    apply Z.divide_gcd_iff in Habs; [|apply Z.abs_nonneg]. lia.
Qed.

Lemma kernel_inv_exit (m kernel d temp : Z) :
  kernel_inv m kernel d temp -> temp < d * d ->
  kernel_post m (kernel_result kernel temp).
Proof.
  intros [] Hexit. unfold kernel_result.
  destruct (Z.ltb_spec 1 temp) as [Htemp|Htemp].
  - assert (Hprime : Z.prime temp).
    { split; [done|]. intros n Hn [c Hc].
      destruct (Z.lt_ge_cases n d) as [Hnd|Hnd].
      - apply (inv_no_small0 n); [lia|]. by exists c.
      - apply (inv_no_small0 c); [nia|]. exists n. lia. }
    split; [nia|done| |done].
    apply square_free_mul_prime; [done..|].
    by apply (coprime_not_divide kernel temp temp).
  - assert (temp = 1) as -> by lia. rewrite Z.mul_1_r in *. by split.
Qed.

Lemma kernel_inv_skip (m kernel d temp : Z) :
  kernel_inv m kernel d temp -> ~ (d | temp) -> kernel_inv m kernel (d + 1) temp.
Proof.
  intros [] Hnd. split; try done; [lia|].
  intros q Hq. destruct (decide (q = d)) as [->|Hne]; [done|].
  apply inv_no_small0. lia.
Qed.

Lemma kernel_inv_factor (m kernel d temp t' : Z) :
  kernel_inv m kernel d temp -> (d | temp) ->
  1 <= t' -> (t' | temp) -> ~ (d | t') -> (d * t' | temp) ->
  (forall c, Z.coprime c d -> Z.coprime c t' -> Z.coprime c temp) ->
  kernel_inv m (kernel * d) (d + 1) t'.
Proof.
  intros [] Hd Ht' Hdiv Hnd Hmul Hcop.
  assert (Hprime : Z.prime d).
  { split; [lia|]. intros n Hn Hnd'. apply (inv_no_small0 n); [lia|]. by etrans. }
  split.
  - nia.
  - done.
  - lia.
  - intros q Hq Hqt. destruct (decide (q = d)) as [->|Hne]; [done|].
    apply (inv_no_small0 q); [lia|]. by etrans.
  - apply square_free_mul_prime; [done..|].
    apply (coprime_not_divide kernel temp d); [done|lia|done].
  - apply Z.coprime_mul_l; [by apply (coprime_divide_r _ temp)|].
    by apply Z.coprime_prime_l.
  - etrans; [|exact inv_divide0].
    rewrite <- Z.mul_assoc. by apply Z.mul_divide_mono_l.
  - intros c Hcm Hc. apply inv_full0; [done|].
    assert (Hck : Z.coprime c kernel).
    { apply (coprime_divide_r _ _ _ Hc). exists (d * t'). lia. }
    assert (Hcd : Z.coprime c d).
    { apply (coprime_divide_r _ _ _ Hc). exists (kernel * t'). lia. }
    assert (Hct : Z.coprime c t').
    { apply (coprime_divide_r _ _ _ Hc). exists (kernel * d). lia. }
    apply Z.coprime_mul_r; auto.
Qed.

Lemma kernel_loop_spec (m : Z) (fuel : nat) (kernel d temp : Z) :
  kernel_inv m kernel d temp ->
  temp + 2 - d <= Z.of_nat fuel -> (1 <= fuel)%nat ->
  exists kernel' temp',
    kernel_loop fuel kernel d temp = Ret (kernel', temp')
    /\ kernel_post m (kernel_result kernel' temp').
Proof.
  revert kernel d temp. induction fuel as [|fuel IH]; intros kernel d temp Hinv Hfuel Hpos; [lia|].
  simpl. destruct (Z.leb_spec (d * d) temp) as [Hcont|Hexit].
  - pose proof (inv_d_ge _ _ _ _ Hinv) as Hd.
    pose proof (inv_temp_pos _ _ _ _ Hinv) as Htemp.
    destruct (Z.eqb_spec (temp `mod` d) 0) as [Hmod|Hmod].
    + apply Z.mod_divide in Hmod as Hdiv; [|lia].
      destruct (strip_factor_spec (Z.to_nat temp) d temp)
        as (t' & -> & Hrange & Hdivt & Hnd & Hmul & Hcop); [lia..|].
      simpl. apply IH; [|nia|nia].
      apply (kernel_inv_factor m kernel d temp t'); auto. lia.
    + apply IH; [|nia|nia].
      apply kernel_inv_skip; [done|].
      intros Hdiv. apply Hmod. apply Z.mod_divide; [lia|done].
  - exists kernel, temp. split; [done|]. by apply (kernel_inv_exit m kernel d temp).
Qed.

Lemma square_free_kernel_post (m : Z) :
  1 <= m -> exists k : Z, square_free_kernel m = Ret k /\ kernel_post m k.
Proof.
  intros Hm. unfold square_free_kernel.
  destruct (Z.eqb_spec m 0) as [->|_]; [lia|].
  destruct (kernel_loop_spec m (S (Z.to_nat m)) 1 2 m)
    as (kernel & temp & -> & Hpost); [by apply kernel_inv_init|lia..|].
  simpl. eauto.
Qed.

(** The loops of [square_free_kernel] end on every input. *)
Lemma square_free_kernel_total (m : Z) : exists k : Z, square_free_kernel m = Ret k.
Proof.
  destruct (Z.lt_trichotomy m 0) as [Hneg|[->|Hpos]].
  - exists 1. unfold square_free_kernel.
    destruct (Z.eqb_spec m 0) as [|_]; [lia|].
    replace (Z.to_nat m) with 0%nat by lia. simpl.
    destruct (Z.leb_spec (2 * 2) m); [lia|]. simpl. unfold kernel_result.
    by destruct (Z.ltb_spec 1 m); [lia|].
  - by exists 0.
  - destruct (square_free_kernel_post m) as (k & Hk & _); [lia|]. eauto.
Qed.

(** A positive square-free integer is its own kernel. *)
Lemma kernel_post_square_free (m k : Z) :
  1 <= m -> square_free m -> kernel_post m k -> k = m.
Proof.
  intros Hm Hsf [Hk [q Hq] _ Hfull].
  assert (Hq1 : 1 <= q) by nia.
  assert (Hcop : Z.coprime q k).
  { unfold Z.coprime. pose proof (Z.gcd_nonneg q k) as Hg0.
    destruct (Z.lt_ge_cases 1 (Z.gcd q k)) as [Hg|Hg].
    - exfalso. apply (Hsf (Z.gcd q k) Hg).
      destruct (Z.gcd_divide_l q k) as [a Ha], (Z.gcd_divide_r q k) as [b Hb].
      exists (a * b). remember (Z.gcd q k) as g. rewrite Hq, Ha, Hb. ring.
    - assert (Z.gcd q k <> 0); [|lia].
      intros [Hq0 _]%Z.gcd_eq_0. lia. }
  assert (Habs : Z.abs q = 1).
  { apply Hfull; [|done]. exists k. lia. }
  nia.
Qed.

(** C9: for [m >= 1] the kernel divides [m], is square-free, and is a fixed
    point of [square_free_kernel]. *)
Theorem square_free_kernel_sound (m : Z) :
  1 <= m ->
  exists k : Z,
    square_free_kernel m = Ret k
    /\ (k | m)
    /\ square_free k
    /\ square_free_kernel k = Ret k.
Proof.
  intros Hm.
  destruct (square_free_kernel_post m Hm) as (k & Hk & Hpost).
  exists k. split; [done|].
  destruct Hpost as [Hk1 Hdiv Hsf _]. split; [done|]. split; [done|].
  destruct (square_free_kernel_post k Hk1) as (k' & Hk' & Hpost').
  rewrite Hk'. f_equal. by apply kernel_post_square_free.
Qed.

Lemma square_free_kernel_sound_witness :
  exists k : Z,
    square_free_kernel 126 = Ret k
    /\ (k | 126)
    /\ square_free k
    /\ square_free_kernel k = Ret k.
Proof. apply (square_free_kernel_sound 126). lia. Defined.

(** ** The hypergraph builder *)

Lemma core_defined (a b : Z) : 1 <= a -> exists k : Z, core a b = Ret k.
Proof.
  intros Ha. unfold core.
  destruct (Z.eqb_spec (Z.gcd a b * Z.gcd a b) 0) as [H0|_]; [|eauto].
  assert (Z.gcd a b = 0) as [? _]%Z.gcd_eq_0 by nia. lia.
Qed.

(** The quotient is exact: [core(a, b) * gcd(a, b)^2 = a * b]. *)
Lemma core_Ret (a b k : Z) :
  core a b = Ret k -> k * (Z.gcd a b * Z.gcd a b) = a * b.
Proof.
  unfold core.
  destruct (Z.eqb_spec (Z.gcd a b * Z.gcd a b) 0) as [|Hg]; [done|].
  intros [= <-].
  destruct (Z.gcd_divide_l a b) as [x Hx], (Z.gcd_divide_r a b) as [y Hy].
  remember (Z.gcd a b) as g.
  assert (Hab : a * b = (x * y) * (g * g)) by (rewrite Hx at 1; rewrite Hy at 1; ring).
  rewrite Hab, Z.div_mul by done. done.
Qed.

Lemma same_core_square (x y z w k : Z) :
  core x y = Ret k -> core z w = Ret k -> perfect_square (x * y * z * w).
Proof.
  intros Hxy%core_Ret Hzw%core_Ret.
  exists (k * Z.gcd x y * Z.gcd z w).
  rewrite <- Z.mul_assoc, <- Hxy, <- Hzw. ring.
Qed.

Lemma foldl_outcome_snoc {A B : Type} (f : A -> B -> outcome A) (a : A) (l : list B) (x : B) :
  foldl_outcome f a (l ++ [x]) = (a' ← foldl_outcome f a l; f a' x).
Proof.
  revert a. induction l as [|y l IH]; intros a; simpl.
  - by destruct (f a x).
  - destruct (f a y) as [a'| |]; simpl; [apply IH|done..].
Qed.

Lemma group_append_elem (k : Z) (p : Z * Z) (groups : list (Z * list (Z * Z)))
  (k' : Z) (ps' : list (Z * Z)) :
  (k', ps') ∈ group_append k p groups ->
  (k', ps') ∈ groups
  \/ (k' = k /\ exists ps, ps' = ps ++ [p] /\ (ps = [] \/ (k, ps) ∈ groups)).
Proof.
  induction groups as [|[k0 ps0] groups IH]; simpl.
  - intros [= -> ->]%list_elem_of_singleton. right. split; [done|]. exists []. auto.
  - case_bool_decide as Hk.
    + subst k0. intros [[= -> ->]|Hin]%elem_of_cons.
      * right. split; [done|]. exists ps0. split; [done|]. right. apply list_elem_of_here.
      * left. by apply list_elem_of_further.
    + intros [[= -> ->]|Hin]%elem_of_cons.
      * left. apply list_elem_of_here.
      * destruct (IH Hin) as [Hold|(-> & ps & -> & [->|Hps])].
        -- left. by apply list_elem_of_further.
        -- right. split; [done|]. exists []. auto.
        -- right. split; [done|]. exists ps. split; [done|]. right.
           by apply list_elem_of_further.
Qed.

Lemma build_pair_groups_prefix (l : list (Z * Z)) :
  Forall (fun p => 1 <= p.1) l ->
  exists groups,
    foldl_outcome (fun groups p => k ← core p.1 p.2; Ret (group_append k p groups)) [] l
      = Ret groups
    /\ groups_ok l groups.
Proof.
  induction l as [|p l IH] using rev_ind; intros Hl.
  - exists []. split; [done|]. by intros k pairs ?%elem_of_nil.
  - apply Forall_app in Hl as [Hl Hp]. rewrite Forall_singleton in Hp.
    destruct (IH Hl) as (groups & Hret & Hok).
    destruct (core_defined p.1 p.2 Hp) as [k Hk].
    exists (group_append k p groups). rewrite foldl_outcome_snoc, Hret. simpl.
    rewrite Hk. simpl. split; [done|].
    intros k' ps' [Hold|(-> & ps & -> & Hps)]%group_append_elem.
    + destruct (Hok _ _ Hold) as [Hsub Hcore]. split; [|done].
      by apply sublist_inserts_r.
    + destruct Hps as [->|Hps].
      * split; [apply sublist_inserts_l; reflexivity|].
        by intros q ->%list_elem_of_singleton.
      * destruct (Hok _ _ Hps) as [Hsub Hcore]. split.
        -- by apply sublist_app.
        -- intros q [Hq| ->%list_elem_of_singleton]%elem_of_app; auto.
Qed.

Lemma elem_of_all_pairs {A : Type} (l : list A) (x y : A) :
  (x, y) ∈ all_pairs l -> x ∈ l /\ y ∈ l.
Proof.
  induction l as [|a l IH]; simpl; [by intros ?%elem_of_nil|].
  intros [(z & [= -> ->] & Hz)%list_elem_of_fmap|Hin]%elem_of_app.
  - split; [apply list_elem_of_here|by apply list_elem_of_further].
  - destruct (IH Hin). split; by apply list_elem_of_further.
Qed.

Lemma build_pair_groups_spec (V : list Z) :
  Forall (fun x => 1 <= x) V ->
  exists groups, build_pair_groups V = Ret groups /\ groups_ok (all_pairs V) groups.
Proof.
  intros HV. apply build_pair_groups_prefix.
  apply Forall_forall. intros [x y] [Hx _]%elem_of_all_pairs.
  rewrite Forall_forall in HV. by apply HV.
Qed.

Lemma size_list_to_set_le (l : list Z) : (size (list_to_set l : gset Z) <= length l)%nat.
Proof.
  induction l as [|x l IH]; [by rewrite list_to_set_nil, size_empty|].
  rewrite list_to_set_cons, size_union_alt, size_singleton. simpl.
  assert (size (list_to_set l ∖ {[x]} : gset Z) <= size (list_to_set l : gset Z))%nat
    by (apply subseteq_size; set_solver).
  lia.
Qed.

(** [len(set(l)) == len(l)] holds exactly when [l] has no repetition. *)
Lemma size_list_to_set_NoDup (l : list Z) :
  size (list_to_set l : gset Z) = length l -> NoDup l.
Proof.
  induction l as [|x l IH]; [constructor|].
  rewrite list_to_set_cons. simpl. intros Hsize.
  destruct (decide (x ∈ l)) as [Hin|Hnin].
  - exfalso. pose proof (size_list_to_set_le l) as Hle.
    replace ({[x]} ∪ list_to_set l : gset Z) with (list_to_set l : gset Z) in Hsize
      by set_solver.
    lia.
  - rewrite size_union, size_singleton in Hsize by set_solver.
    constructor; [done|]. apply IH. lia.
Qed.

Lemma sorted_strict (l : list Z) : NoDup l -> StronglySorted Z.lt (sorted l).
Proof.
  intros Hnd.
  assert (Hnd' : NoDup (sorted l)) by (unfold sorted; by rewrite sorted_by_perm).
  pose proof (sorted_StronglySorted l) as Hs.
  induction Hs as [|x k Hk IH Hx]; [constructor|].
  apply NoDup_cons in Hnd' as [Hxk Hndk].
  constructor; [by apply IH|].
  apply Forall_forall. intros y Hy. rewrite Forall_forall in Hx.
  specialize (Hx y Hy). assert (x <> y) by (by intros ->). lia.
Qed.

Lemma edge_of_pairs_spec (p1 p2 : Z * Z) (a b c d : Z) :
  edge_of_pairs p1 p2 = Some (a, b, c, d) ->
  a < b /\ b < c /\ c < d
  /\ [a; b; c; d] ≡ₚ [p1.1; p1.2; p2.1; p2.2]
  /\ a * d <> b * c.
Proof.
  unfold edge_of_pairs. case_bool_decide as Hsize; [|done].
  destruct (sorted (elements _)) as [|q0 [|q1 [|q2 [|q3 [|]]]]] eqn:Hs; try done.
  destruct (Z.eqb_spec (q0 * q3) (q1 * q2)) as [|Hne]; [done|].
  simpl. intros [= -> -> -> ->].
  assert (Hset : ({[ p1.1; p1.2; p2.1; p2.2 ]} : gset Z)
                 = list_to_set [p1.1; p1.2; p2.1; p2.2]) by set_solver.
  rewrite Hset in Hs, Hsize.
  apply size_list_to_set_NoDup in Hsize.
  assert (Hperm : [a; b; c; d] ≡ₚ [p1.1; p1.2; p2.1; p2.2]).
  { rewrite <- Hs. unfold sorted. rewrite sorted_by_perm.
    by apply elements_list_to_set. }
  pose proof (sorted_strict (elements (list_to_set [p1.1; p1.2; p2.1; p2.2] : gset Z))
                (NoDup_elements _)) as Hsorted.
  rewrite Hs in Hsorted.
  assert (a < b /\ b < c /\ c < d); [|tauto].
  repeat match goal with
         | H : StronglySorted _ (_ :: _) |- _ => apply StronglySorted_inv in H as [? ?]
         | H : Forall _ (_ :: _) |- _ => apply Forall_cons in H as [? ?]
         end.
  lia.
Qed.

Lemma elem_of_build_edges (groups : list (Z * list (Z * Z))) (e : edge) :
  e ∈ build_edges groups ->
  exists k pairs p1 p2,
    (k, pairs) ∈ groups /\ (p1, p2) ∈ all_pairs pairs /\ edge_of_pairs p1 p2 = Some e.
Proof.
  unfold build_edges. intros ([k pairs] & He & Hin)%list_elem_of_bind.
  unfold bucket_edges in He. simpl in He.
  destruct (length pairs <? 2)%nat; [by apply elem_of_nil in He|].
  apply list_elem_of_omap in He as ([p1 p2] & Hpp & He).
  by exists k, pairs, p1, p2.
Qed.

Lemma list_prod_perm (l1 l2 : list Z) : l1 ≡ₚ l2 -> list_prod l1 = list_prod l2.
Proof. induction 1; simpl; lia. Qed.

Lemma build_edges_violating (n : Z) (V : list Z) (groups : list (Z * list (Z * Z))) (e : edge) :
  sieve_square_free n = Ret V -> groups_ok (all_pairs V) groups ->
  e ∈ build_edges groups -> violating n e.
Proof.
  intros HV Hok (k & pairs & p1 & p2 & Hg & Hpp & He)%elem_of_build_edges.
  destruct e as [[[a b] c] d].
  apply edge_of_pairs_spec in He as (Hab & Hbc & Hcd & Hperm & Hne).
  destruct (Hok _ _ Hg) as [Hsub Hcore].
  apply elem_of_all_pairs in Hpp as [Hp1 Hp2].
  assert (HinV : forall p, p ∈ pairs -> p.1 ∈ V /\ p.2 ∈ V).
  { intros [x y] Hp. apply elem_of_all_pairs. by apply (sublist_subseteq _ _ Hsub). }
  destruct (HinV _ Hp1) as [Hx Hy], (HinV _ Hp2) as [Hz Hw].
  do 3 (split; [done|]). split; [|split; [|done]].
  - apply Forall_forall. intros v Hv. rewrite Hperm in Hv.
    apply (elem_of_sieve n v V HV).
    repeat (apply elem_of_cons in Hv as [->|Hv]; [done|]).
    by apply elem_of_nil in Hv.
  - pose proof (same_core_square _ _ _ _ _ (Hcore _ Hp1) (Hcore _ Hp2)) as [r Hr].
    exists r. rewrite <- Hr.
    apply list_prod_perm in Hperm. unfold list_prod in Hperm. simpl in Hperm. lia.
Qed.

(** ** The branch-and-bound search *)

Lemma backtrack_unfold (deg : gmap Z Z) (rest : list edge) (st : gset Z * gset Z) :
  backtrack deg rest st
  = if (size st.2 <=? size st.1)%nat then Ret st else scan deg st rest.
Proof.
  destruct rest as [|e l]; [reflexivity|].
  cbn [backtrack scan]. destruct (size st.2 <=? size st.1)%nat; [done|].
  destruct (covered st.1 e); [|reflexivity].
  induction l as [|e' l IH]; [reflexivity|].
  cbn [scan]. destruct (covered st.1 e'); [|reflexivity]. apply IH.
Qed.

Lemma covered_true (C : gset Z) (e : edge) :
  covered C e = true <-> exists v, v ∈ edge_vertices e /\ v ∈ C.
Proof.
  unfold covered. rewrite existsb_exists. split.
  - intros (v & Hv%list_elem_of_In & Hc%bool_decide_eq_true). eauto.
  - intros (v & Hv & Hc). exists v. split; [by apply list_elem_of_In|].
    by apply bool_decide_eq_true.
Qed.

Lemma covered_false (C : gset Z) (e : edge) (v : Z) :
  covered C e = false -> v ∈ edge_vertices e -> v ∉ C.
Proof.
  intros Hc Hv Hin. assert (covered C e = true) as Ht; [|congruence].
  apply covered_true. eauto.
Qed.

Section search.
Variable deg : gmap Z Z.

Lemma branch_step_Ret (l' : list edge) (cover best b1 : gset Z) (v : Z) :
  backtrack deg l' ({[v]} ∪ cover, best) = Ret ({[v]} ∪ cover, b1) ->
  v ∉ cover ->
  branch_step deg l' (cover, best) v = Ret (cover, b1).
Proof.
  intros Hret Hv. unfold branch_step. simpl. rewrite Hret. simpl.
  rewrite bool_decide_true by set_solver.
  by replace (({[v]} ∪ cover) ∖ {[v]}) with cover by set_solver.
Qed.

Lemma branch_spec (l' : list edge) :
  (forall cover best, exists best',
      backtrack deg l' (cover, best) = Ret (cover, best')
      /\ search_post cover best l' best') ->
  forall (vs : list Z) (cover best : gset Z),
    (forall v, v ∈ vs -> v ∉ cover) ->
    exists best',
      foldl_outcome (branch_step deg l') (cover, best) vs = Ret (cover, best')
      /\ (size best' <= size best)%nat
      /\ (best' = best
          \/ exists v, v ∈ vs /\ {[v]} ∪ cover ⊆ best' /\ is_cover best' l'
                       /\ forall x, x ∈ best' ->
                            x ∈ {[v]} ∪ cover \/ exists e, e ∈ l' /\ x ∈ edge_vertices e)
      /\ (forall v C, v ∈ vs -> {[v]} ∪ cover ⊆ C -> is_cover C l' ->
            (size best' <= size C)%nat).
Proof.
  intros Hrec. induction vs as [|v vs IH]; intros cover best Hvs.
  - exists best. split; [done|]. split; [done|]. split; [by left|].
    by intros v C ?%elem_of_nil.
  - assert (Hv : v ∉ cover) by (apply Hvs, list_elem_of_here).
    destruct (Hrec ({[v]} ∪ cover) best) as (b1 & Hret1 & [Hsize1 Hsound1 Hopt1]).
    cbn [foldl_outcome]. rewrite (branch_step_Ret _ _ _ _ _ Hret1 Hv). simpl.
    destruct (IH cover b1) as (b2 & Hret & Hsize2 & Hsound2 & Hopt2).
    { intros w Hw. by apply Hvs, list_elem_of_further. }
    exists b2. split; [done|]. split; [lia|]. split.
    + destruct Hsound2 as [->|(w & Hw & Hpost)].
      * destruct Hsound1 as [->|(Hsub & Hcov & Hfrom)]; [by left|].
        right. exists v. split; [apply list_elem_of_here|done].
      * right. exists w. split; [by apply list_elem_of_further|done].
    + intros w C [->|Hw]%elem_of_cons HC HcovC.
      * etrans; [exact Hsize2|]. by apply Hopt1.
      * by apply (Hopt2 w).
Qed.

Lemma prune_post (cover best : gset Z) (rest : list edge) :
  (size best <= size cover)%nat -> search_post cover best rest best.
Proof.
  intros Hle. split; [done|by left|].
  intros C HC _. etrans; [exact Hle|]. by apply subseteq_size.
Qed.

Lemma backtrack_of_scan (rest : list edge) :
  (forall cover best, exists best',
      scan deg (cover, best) rest = Ret (cover, best')
      /\ search_post cover best rest best') ->
  forall cover best, exists best',
    backtrack deg rest (cover, best) = Ret (cover, best')
    /\ search_post cover best rest best'.
Proof.
  intros Hscan cover best. rewrite backtrack_unfold. simpl.
  destruct (Nat.leb_spec (size best) (size cover)) as [Hle|Hlt]; [|apply Hscan].
  exists best. split; [done|]. by apply prune_post.
Qed.

Lemma scan_spec (rest : list edge) (cover best : gset Z) :
  exists best',
    scan deg (cover, best) rest = Ret (cover, best')
    /\ search_post cover best rest best'.
Proof.
  revert cover best. induction rest as [|e l' IH]; intros cover best.
  - simpl. destruct (Nat.ltb_spec (size cover) (size best)) as [Hlt|Hge].
    + exists cover. split; [done|]. split; [lia| |].
      * right. split; [done|]. split; [by intros e ?%elem_of_nil|]. auto.
      * intros C HC _. by apply subseteq_size.
    + exists best. split; [done|]. by apply prune_post.
  - simpl. destruct (covered cover e) eqn:Hcov.
    + destruct (IH cover best) as (b & Hret & [Hsize Hsound Hopt]).
      exists b. split; [done|]. split; [done| |].
      * destruct Hsound as [->|(Hsub & Hcovb & Hfrom)]; [by left|]. right.
        split; [done|]. split.
        -- intros e' [->|He']%elem_of_cons; [|by apply Hcovb].
           apply covered_true in Hcov as (v & Hv & Hin). exists v. split; [done|].
           by apply Hsub.
        -- intros x Hx. destruct (Hfrom x Hx) as [?|(e' & He' & Hxe)]; [by left|].
           right. exists e'. split; [by apply list_elem_of_further|done].
      * intros C HC HcovC. apply Hopt; [done|].
        intros e' He'. by apply HcovC, list_elem_of_further.
    + destruct (branch_spec l' (backtrack_of_scan l' IH)
                  (sorted_by (fun x y => deg_of deg y <=? deg_of deg x) (edge_vertices e))
                  cover best)
        as (b & Hret & Hsize & Hsound & Hopt).
      { intros v Hv%elem_of_sorted_by. by apply (covered_false cover e). }
      exists b. split; [done|]. split; [done| |].
      * destruct Hsound as [->|(v & Hv%elem_of_sorted_by & Hsub & Hcovb & Hfrom)];
          [by left|].
        right. split; [set_solver|]. split.
        -- intros e' [->|He']%elem_of_cons; [|by apply Hcovb].
           exists v. split; [done|]. apply Hsub. set_solver.
        -- intros x Hx. destruct (Hfrom x Hx) as [[->%elem_of_singleton|?]%elem_of_union
                                                  |(e' & He' & Hxe)].
           ++ right. exists e. split; [apply list_elem_of_here|done].
           ++ by left.
           ++ right. exists e'. split; [by apply list_elem_of_further|done].
      * intros C HC HcovC.
        destruct (HcovC e (list_elem_of_here _ _)) as (v & Hv & HvC).
        apply (Hopt v); [by apply elem_of_sorted_by|set_solver|].
        intros e' He'. by apply HcovC, list_elem_of_further.
Qed.

Lemma backtrack_spec (rest : list edge) (cover best : gset Z) :
  exists best',
    backtrack deg rest (cover, best) = Ret (cover, best')
    /\ search_post cover best rest best'.
Proof. apply backtrack_of_scan. intros. apply scan_spec. Qed.
End search.

(** ** [compute_f_sf] *)

Lemma violating_vertices (n : Z) (V : list Z) (e : edge) (v : Z) :
  sieve_square_free n = Ret V -> violating n e -> v ∈ edge_vertices e -> v ∈ V.
Proof.
  intros HV. destruct e as [[[a b] c] d]. intros (_ & _ & _ & Hall & _) Hv.
  apply (elem_of_sieve n v V HV). rewrite Forall_forall in Hall. by apply Hall.
Qed.

Lemma compute_f_sf_spec (n : Z) :
  0 <= n -> exists V groups cover, f_sf_result n V groups cover.
Proof.
  intros Hn. destruct (sieve_square_free_Ret n Hn) as [V HV].
  destruct (build_pair_groups_spec V) as (groups & Hg & Hok).
  { apply Forall_forall. intros x Hx. by apply (elem_of_sieve n x V HV) in Hx as [[? _] _]. }
  assert (Hviol : forall e, e ∈ build_edges groups -> violating n e).
  { intros e. by apply (build_edges_violating n V groups e). }
  cut (exists cover : gset Z,
         compute_f_sf n
         = Ret (Z.of_nat (length V) - Z.of_nat (size cover), build_edges groups, cover)
         /\ cover ⊆ list_to_set V
         /\ is_cover cover (build_edges groups)
         /\ forall C : gset Z,
              is_cover C (build_edges groups) -> (size cover <= size C)%nat).
  { intros (cover & ? & ? & ? & ?). by exists V, groups, cover. }
  unfold compute_f_sf. rewrite HV. simpl. rewrite Hg. simpl.
  destruct (build_edges groups) as [|e0 es] eqn:Hedges.
  - exists ∅. split; [by rewrite size_empty, Z.sub_0_r|]. split; [done|]. split.
    + by intros e ?%elem_of_nil.
    + intros C _. rewrite size_empty. lia.
  - rewrite drop_0.
    destruct (backtrack_spec (degree_table (e0 :: es)) (e0 :: es) ∅ (list_to_set V))
      as (best & -> & [Hsize Hsound Hopt]).
    simpl. exists best.
    assert (HcoverV : is_cover (list_to_set V) (e0 :: es)).
    { intros [[[a b] c] d] He. exists a. split; [apply list_elem_of_here|].
      apply elem_of_list_to_set.
      apply (violating_vertices n V (a, b, c, d) a HV); [by apply Hviol|].
      apply list_elem_of_here. }
    split; [done|]. split; [|split].
    + destruct Hsound as [->|(_ & _ & Hfrom)]; [done|].
      intros x Hx. destruct (Hfrom x Hx) as [Hempty|(e & He & Hxe)]; [set_solver|].
      apply elem_of_list_to_set.
      apply (violating_vertices n V e x HV); [by apply Hviol|done].
    + by destruct Hsound as [->|(_ & Hcov & _)].
    + intros C HC. apply Hopt; [set_solver|done].
Qed.

(** C1: for positive [n], [compute_f_sf(n)] returns [(f_sf, edges, cover)]
    with [0 <= f_sf <= len(sieve_square_free(n))], and every returned edge
    has one of its four vertices in the returned cover. *)
Theorem compute_f_sf_sound (n : Z) :
  1 <= n ->
  exists (f_sf : Z) (edges : list edge) (cover : gset Z) (V : list Z),
    compute_f_sf n = Ret (f_sf, edges, cover)
    /\ sieve_square_free n = Ret V
    /\ 0 <= f_sf <= Z.of_nat (length V)
    /\ forall e, e ∈ edges -> exists v, v ∈ edge_vertices e /\ v ∈ cover.
Proof.
  intros Hn. destruct (compute_f_sf_spec n) as (V & groups & cover & []); [lia|].
  eexists _, _, cover, V. split; [done|]. split; [done|]. split; [|done].
  apply subseteq_size in res_vertices0.
  pose proof (size_list_to_set_le V). lia.
Qed.

Lemma compute_f_sf_sound_witness :
  exists (f_sf : Z) (edges : list edge) (cover : gset Z) (V : list Z),
    compute_f_sf 30 = Ret (f_sf, edges, cover)
    /\ sieve_square_free 30 = Ret V
    /\ 0 <= f_sf <= Z.of_nat (length V)
    /\ forall e, e ∈ edges -> exists v, v ∈ edge_vertices e /\ v ∈ cover.
Proof. apply (compute_f_sf_sound 30). lia. Defined.

(** C2: for positive [n], the returned cover is a minimum vertex cover of
    the constructed hypergraph: it is a set of vertices of [V(n)] with a
    vertex in every constructed hyperedge, no set of vertices that has a
    vertex in every constructed hyperedge is smaller, and
    [f_sf = |V(n)| - |cover|]. *)
Theorem compute_f_sf_minimum (n : Z) :
  1 <= n ->
  exists (f_sf : Z) (edges : list edge) (cover : gset Z) (V : list Z),
    compute_f_sf n = Ret (f_sf, edges, cover)
    /\ sieve_square_free n = Ret V
    /\ cover ⊆ list_to_set V
    /\ is_cover cover edges
    /\ (forall C : gset Z,
          C ⊆ list_to_set V -> is_cover C edges -> ~ (size C < size cover)%nat)
    /\ f_sf = Z.of_nat (length V) - Z.of_nat (size cover).
Proof.
  intros Hn. destruct (compute_f_sf_spec n) as (V & groups & cover & []); [lia|].
  eexists _, _, cover, V. do 4 (split; [done|]). split; [|done].
  intros C _ HC. specialize (res_minimum0 C HC). lia.
Qed.

Lemma compute_f_sf_minimum_witness :
  exists (f_sf : Z) (edges : list edge) (cover : gset Z) (V : list Z),
    compute_f_sf 30 = Ret (f_sf, edges, cover)
    /\ sieve_square_free 30 = Ret V
    /\ cover ⊆ list_to_set V
    /\ is_cover cover edges
    /\ (forall C : gset Z,
          C ⊆ list_to_set V -> is_cover C edges -> ~ (size C < size cover)%nat)
    /\ f_sf = Z.of_nat (length V) - Z.of_nat (size cover).
Proof. apply (compute_f_sf_minimum 30). lia. Defined.

(** C7: for positive [n], every returned edge is a strictly ascending
    4-tuple of square-free integers of [[1, n]] whose product is a perfect
    square and whose cross products [a * d] and [b * c] differ. *)
Theorem compute_f_sf_edges_violating (n : Z) :
  1 <= n ->
  exists (f_sf : Z) (edges : list edge) (cover : gset Z),
    compute_f_sf n = Ret (f_sf, edges, cover)
    /\ forall a b c d, (a, b, c, d) ∈ edges ->
         a < b /\ b < c /\ c < d
         /\ Forall (fun v => 1 <= v <= n /\ square_free v) [a; b; c; d]
         /\ perfect_square (a * b * c * d)
         /\ a * d <> b * c.
Proof.
  intros Hn. destruct (compute_f_sf_spec n) as (V & groups & cover & []); [lia|].
  eexists _, _, cover. split; [done|].
  intros a b c d He.
  by apply (build_edges_violating n V groups (a, b, c, d)).
Qed.

Lemma compute_f_sf_edges_violating_witness :
  exists (f_sf : Z) (edges : list edge) (cover : gset Z),
    compute_f_sf 30 = Ret (f_sf, edges, cover)
    /\ forall a b c d, (a, b, c, d) ∈ edges ->
         a < b /\ b < c /\ c < d
         /\ Forall (fun v => 1 <= v <= 30 /\ square_free v) [a; b; c; d]
         /\ perfect_square (a * b * c * d)
         /\ a * d <> b * c.
Proof. apply (compute_f_sf_edges_violating 30). lia. Defined.

(** ** Repeated hyperedges *)

Lemma core_comm (a b : Z) : core a b = core b a.
Proof. unfold core. by rewrite (Z.gcd_comm a b), (Z.mul_comm a b). Qed.

(** The square-free part of a positive integer is unique. *)
Lemma square_free_part_unique (y z g h : Z) :
  1 <= y -> 1 <= z -> 1 <= g -> 1 <= h ->
  square_free y -> square_free z -> y * (h * h) = z * (g * g) -> y = z.
Proof.
  intros Hy Hz Hg Hh Hsy Hsz Heq.
  pose proof (Z.gcd_nonneg g h) as Hd0.
  assert (Hd : Z.gcd g h <> 0) by (intros [? _]%Z.gcd_eq_0; lia).
  pose proof (Z.gcd_div_gcd g h (Z.gcd g h) Hd eq_refl) as Hcop.
  destruct (Z.gcd_divide_l g h) as [g' Hg'], (Z.gcd_divide_r g h) as [h' Hh'].
  remember (Z.gcd g h) as d.
  assert (Hgq : g `div` d = g') by (rewrite Hg'; by apply Z.div_mul).
  assert (Hhq : h `div` d = h') by (rewrite Hh'; by apply Z.div_mul).
  rewrite Hgq, Hhq in Hcop.
  assert (Heq' : y * (h' * h') = z * (g' * g')) by (subst g h; nia).
  assert (Hg1 : g' = 1).
  { destruct (Z.lt_ge_cases 1 g') as [Hlt|Hge]; [|nia].
    exfalso. apply (Hsy g' Hlt).
    apply (Z.gauss _ (h' * h')).
    - exists z. lia.
    - apply Z.coprime_mul_l; by apply Z.coprime_mul_r. }
  assert (Hh1 : h' = 1).
  { destruct (Z.lt_ge_cases 1 h') as [Hlt|Hge]; [|nia].
    exfalso. apply (Hsz h' Hlt).
    apply (Z.gauss _ (g' * g')).
    - exists y. lia.
    - apply coprime_sym in Hcop. apply Z.coprime_mul_l; by apply Z.coprime_mul_r. }
  subst g' h'. lia.
Qed.

Lemma core_inj (x y z k : Z) :
  1 <= x -> 1 <= y -> 1 <= z -> square_free y -> square_free z ->
  core x y = Ret k -> core x z = Ret k -> y = z.
Proof.
  intros Hx Hy Hz Hsy Hsz Hxy%core_Ret Hxz%core_Ret.
  assert (Hg : 1 <= Z.gcd x y).
  { pose proof (Z.gcd_nonneg x y).
    assert (Z.gcd x y <> 0) by (intros [? _]%Z.gcd_eq_0; lia). lia. }
  assert (Hh : 1 <= Z.gcd x z).
  { pose proof (Z.gcd_nonneg x z).
    assert (Z.gcd x z <> 0) by (intros [? _]%Z.gcd_eq_0; lia). lia. }
  apply (square_free_part_unique y z (Z.gcd x y) (Z.gcd x z)); try done.
  apply (Z.mul_reg_l _ _ x); [lia|].
  transitivity (k * (Z.gcd x y * Z.gcd x y) * (Z.gcd x z * Z.gcd x z)).
  - rewrite Hxy. ring.
  - rewrite <- Z.mul_assoc, (Z.mul_comm (Z.gcd x y * Z.gcd x y)), Z.mul_assoc, Hxz. ring.
Qed.

Lemma all_pairs_lt (l : list Z) (x y : Z) :
  StronglySorted Z.lt l -> (x, y) ∈ all_pairs l -> x < y.
Proof.
  induction 1 as [|a l Hl IH Ha]; simpl; [by intros ?%elem_of_nil|].
  intros [(z & [= -> ->] & Hz)%list_elem_of_fmap|Hin]%elem_of_app; [|by apply IH].
  rewrite Forall_forall in Ha. by apply Ha.
Qed.

Lemma all_pairs_NoDup {A : Type} (l : list A) : NoDup l -> NoDup (all_pairs l).
Proof.
  induction 1 as [|a l Ha Hl IH]; simpl; [constructor|].
  apply NoDup_app. split; [|split; [|done]].
  - apply NoDup_fmap_2; [|done]. by intros y1 y2 [= ->].
  - intros [x y] (z & [= -> ->] & Hz)%list_elem_of_fmap [Hx _]%elem_of_all_pairs. done.
Qed.

Lemma all_pairs_ne {A : Type} (l : list A) (x y : A) :
  NoDup l -> (x, y) ∈ all_pairs l -> x <> y.
Proof.
  induction 1 as [|a l Ha Hl IH]; simpl; [by intros ?%elem_of_nil|].
  intros [(z & [= -> ->] & Hz)%list_elem_of_fmap|Hin]%elem_of_app; [|by apply IH].
  by intros <-.
Qed.

Lemma all_pairs_asym {A : Type} (l : list A) (x y : A) :
  NoDup l -> (x, y) ∈ all_pairs l -> (y, x) ∉ all_pairs l.
Proof.
  induction 1 as [|a l Ha Hl IH]; simpl; [by intros ?%elem_of_nil|].
  intros [(z & [= -> ->] & Hz)%list_elem_of_fmap|Hin]%elem_of_app
         [(w & [= -> ->] & Hw)%list_elem_of_fmap|Hin']%elem_of_app.
  - done.
  - by apply elem_of_all_pairs in Hin' as [_ ?].
  - by apply elem_of_all_pairs in Hin as [_ ?].
  - by apply (IH Hin).
Qed.

Lemma NoDup_omap_inj {A B : Type} (f : A -> option B) (l : list A) :
  NoDup l ->
  (forall x y e, x ∈ l -> y ∈ l -> f x = Some e -> f y = Some e -> x = y) ->
  NoDup (omap f l).
Proof.
  induction 1 as [|a l Ha Hl IH]; intros Hinj; simpl; [constructor|].
  assert (Hrest : NoDup (omap f l)).
  { apply IH. intros x y e Hx Hy. apply Hinj; by apply list_elem_of_further. }
  destruct (f a) as [e|] eqn:Hfa; [|done].
  constructor; [|done].
  intros (x & Hx & Hfx)%list_elem_of_omap. apply Ha.
  rewrite (Hinj a x e); [done|apply list_elem_of_here|by apply list_elem_of_further|done..].
Qed.

(** Two pairs of one bucket that share a vertex are the same pair. *)
Lemma bucket_disjoint (k : Z) (pairs : list (Z * Z)) (p q : Z * Z) (v : Z) :
  bucket_ok k pairs -> p ∈ pairs -> q ∈ pairs ->
  v ∈ [p.1; p.2] -> v ∈ [q.1; q.2] -> p = q.
Proof.
  intros [_ Hok] Hp Hq Hvp Hvq.
  destruct (Hok p Hp) as (Hp1 & Hplt & Hsp1 & Hsp2 & Hcp).
  destruct (Hok q Hq) as (Hq1 & Hqlt & Hsq1 & Hsq2 & Hcq).
  destruct p as [x y], q as [z w]. simpl in *.
  apply elem_of_cons in Hvp as [->|Hvp]; [|apply list_elem_of_singleton in Hvp as ->];
    (apply elem_of_cons in Hvq as [Heq|Hvq]; [|apply list_elem_of_singleton in Hvq as Heq]).
  - subst z. f_equal. apply (core_inj x y w k); (done || lia).
  - subst w. exfalso. rewrite core_comm in Hcq.
    assert (y = z) by (apply (core_inj x y z k); (done || lia)). lia.
  - subst z. exfalso. rewrite core_comm in Hcp.
    assert (x = w) by (apply (core_inj y x w k); (done || lia)). lia.
  - subst w. rewrite core_comm in Hcp. rewrite core_comm in Hcq.
    assert (x = z) by (apply (core_inj y x z k); (done || lia)). by subst z.
Qed.

Lemma bucket_edges_NoDup (k : Z) (pairs : list (Z * Z)) :
  bucket_ok k pairs -> NoDup (bucket_edges pairs).
Proof.
  intros Hok. pose proof Hok as [Hnd _]. unfold bucket_edges.
  destruct (length pairs <? 2)%nat; [constructor|].
  apply NoDup_omap_inj; [by apply all_pairs_NoDup|].
  intros [p1 p2] [p3 p4] [[[a b] c] d] Hin Hin' He He'. simpl in He, He'.
  apply edge_of_pairs_spec in He as (_ & _ & _ & Hperm & _).
  apply edge_of_pairs_spec in He' as (_ & _ & _ & Hperm' & _).
  rewrite Hperm in Hperm'.
  pose proof (elem_of_all_pairs _ _ _ Hin) as [Hp1 Hp2].
  pose proof (elem_of_all_pairs _ _ _ Hin') as [Hp3 Hp4].
  assert (Hfind : forall p, p ∈ pairs -> p.1 ∈ [p1.1; p1.2; p2.1; p2.2] ->
                            (p = p3 \/ p = p4)).
  { intros p Hp Hv. rewrite Hperm' in Hv.
    change [p3.1; p3.2; p4.1; p4.2] with ([p3.1; p3.2] ++ [p4.1; p4.2]) in Hv.
    apply elem_of_app in Hv as [Hv|Hv]; [left|right];
      apply (bucket_disjoint k pairs _ _ p.1 Hok); try done; apply list_elem_of_here. }
  destruct (Hfind p1 Hp1) as [H1|H1]; [apply list_elem_of_here| |];
    (destruct (Hfind p2 Hp2) as [H2|H2];
     [do 2 apply list_elem_of_further; apply list_elem_of_here| |]); subst.
  - by apply all_pairs_ne in Hin.
  - done.
  - by apply all_pairs_asym in Hin.
  - by apply all_pairs_ne in Hin.
Qed.

Lemma groups_bucket_ok (n : Z) (V : list Z) (groups : list (Z * list (Z * Z)))
  (k : Z) (pairs : list (Z * Z)) :
  sieve_square_free n = Ret V -> StronglySorted Z.lt V ->
  groups_ok (all_pairs V) groups -> (k, pairs) ∈ groups -> bucket_ok k pairs.
Proof.
  intros HV Hsorted Hok Hin. destruct (Hok _ _ Hin) as [Hsub Hcore].
  assert (HndV : NoDup V).
  { clear -Hsorted. induction Hsorted as [|x l Hl IH Hx]; constructor; [|done].
    intros Hin. rewrite Forall_forall in Hx. specialize (Hx x Hin). lia. }
  split.
  - apply (sublist_NoDup pairs (all_pairs V)); [by apply all_pairs_NoDup|done].
  - intros [x y] Hp. pose proof (sublist_subseteq _ _ Hsub _ Hp) as Hp'.
    pose proof (elem_of_all_pairs _ _ _ Hp') as [Hx Hy].
    apply (elem_of_sieve n x V HV) in Hx as [Hx1 Hsx].
    apply (elem_of_sieve n y V HV) in Hy as [Hy1 Hsy].
    simpl. split; [lia|]. split; [by apply (all_pairs_lt V)|].
    split; [done|]. split; [done|]. by apply (Hcore (x, y)).
Qed.

(** C6, as stated, fails: [compute_f_sf(15)] returns the edge
    [(1, 6, 10, 15)] three times, once from each of the buckets 6, 10, 15. *)
Lemma compute_f_sf_edges_repeat_counterexample :
  1 <= 15
  /\ exists (f_sf : Z) (edges : list edge) (cover : gset Z),
       compute_f_sf 15 = Ret (f_sf, edges, cover)
       /\ edges = [(1, 6, 10, 15); (1, 6, 10, 15); (1, 6, 10, 15)]
       /\ ~ NoDup edges.
Proof.
  split; [lia|]. eexists _, _, _. split; [vm_compute; reflexivity|]. split; [done|].
  intros [Hnin _]%NoDup_cons. apply Hnin, list_elem_of_here.
Qed.

(** C6 (amended): for positive [n], the returned edge sequence is the
    concatenation, bucket after bucket, of the edges built from the pairs of
    one core value, and the edges built from one bucket are pairwise
    distinct as 4-tuples of vertex values; nothing removes a 4-tuple that
    several buckets build. *)
Theorem compute_f_sf_edges_bucketwise (n : Z) :
  1 <= n ->
  exists (f_sf : Z) (edges : list edge) (cover : gset Z)
         (V : list Z) (groups : list (Z * list (Z * Z))),
    compute_f_sf n = Ret (f_sf, edges, cover)
    /\ sieve_square_free n = Ret V
    /\ build_pair_groups V = Ret groups
    /\ edges = groups ≫= (fun kp => bucket_edges kp.2)
    /\ forall k pairs, (k, pairs) ∈ groups -> NoDup (bucket_edges pairs).
Proof.
  intros Hn. destruct (compute_f_sf_spec n) as (V & groups & cover & []); [lia|].
  eexists _, _, cover, V, groups. do 3 (split; [done|]). split; [done|].
  intros k pairs Hin. apply (bucket_edges_NoDup k).
  apply (groups_bucket_ok n V groups); [done| |done..].
  by apply (sieve_strictly_sorted n).
Qed.

Lemma compute_f_sf_edges_bucketwise_witness :
  exists (f_sf : Z) (edges : list edge) (cover : gset Z)
         (V : list Z) (groups : list (Z * list (Z * Z))),
    compute_f_sf 15 = Ret (f_sf, edges, cover)
    /\ sieve_square_free 15 = Ret V
    /\ build_pair_groups V = Ret groups
    /\ edges = groups ≫= (fun kp => bucket_edges kp.2)
    /\ forall k pairs, (k, pairs) ∈ groups -> NoDup (bucket_edges pairs).
Proof. apply (compute_f_sf_edges_bucketwise 15). lia. Defined.

(** * Further properties of the primitives *)

(** X1: [is_square(n)] is true exactly when [n] is the square of an
    integer; in particular it is false on every negative [n]. *)
Theorem is_square_iff (n : Z) : is_square n = true <-> exists r : Z, n = r * r.
Proof. apply is_square_spec. Qed.

(** X2: for [n >= 0] the sieve returns exactly the square-free integers of
    [[1, n]]: nothing square-free is dropped, nothing else is kept, and the
    list is empty for [n = 0]. *)
Theorem sieve_square_free_exact (n : Z) :
  0 <= n ->
  exists V : list Z,
    sieve_square_free n = Ret V
    /\ (forall x, x ∈ V <-> 1 <= x <= n /\ square_free x)
    /\ (n = 0 -> V = []).
Proof.
  intros Hn. destruct (sieve_square_free_Ret n Hn) as [V HV]. exists V.
  split; [done|]. split; [intros x; by apply elem_of_sieve|].
  intros ->. destruct V as [|x V]; [done|].
  assert (Hx : x ∈ x :: V) by apply list_elem_of_here.
  apply (elem_of_sieve 0 x _ HV) in Hx. lia.
Qed.

Lemma sieve_square_free_exact_witness :
  exists V : list Z,
    sieve_square_free 10 = Ret V
    /\ (forall x, x ∈ V <-> 1 <= x <= 10 /\ square_free x)
    /\ (10 = 0 -> V = []).
Proof. apply (sieve_square_free_exact 10). lia. Defined.

Lemma square_free_divisor (x d : Z) : square_free x -> (d | x) -> square_free d.
Proof. intros Hx Hd k Hk Hdiv. apply (Hx k Hk). by etrans. Qed.

(** X3: a positive integer is returned unchanged by [square_free_kernel]
    exactly when it is square-free. *)
Theorem square_free_kernel_fixed_iff (m : Z) :
  1 <= m -> square_free_kernel m = Ret m <-> square_free m.
Proof.
  intros Hm. destruct (square_free_kernel_post m Hm) as (k & Hk & Hpost). split.
  - intros Hret. assert (k = m) as -> by congruence. by destruct Hpost.
  - intros Hsf. rewrite Hk. f_equal. by apply kernel_post_square_free.
Qed.

Lemma square_free_kernel_fixed_iff_witness :
  square_free_kernel 30 = Ret 30 <-> square_free 30.
Proof. apply (square_free_kernel_fixed_iff 30). lia. Defined.

(** X4: the kernel of [m >= 1] has exactly the prime divisors of [m]. *)
Theorem square_free_kernel_primes (m : Z) :
  1 <= m ->
  exists k : Z,
    square_free_kernel m = Ret k
    /\ forall p, Z.prime p -> (p | k) <-> (p | m).
Proof.
  intros Hm. destruct (square_free_kernel_post m Hm) as (k & Hk & [Hk1 Hdiv Hsf Hfull]).
  exists k. split; [done|]. intros p Hp. split; [intros Hpk; by etrans|].
  intros Hpm. destruct (Z.BoolSpec_divide p k) as [Hpk|Hpk]; [done|]. exfalso.
  pose proof (Z.prime_ge_2 p Hp).
  assert (Z.abs p = 1); [|lia].
  apply Hfull; [done|]. by apply Z.coprime_prime_l.
Qed.

Lemma square_free_kernel_primes_witness :
  exists k : Z,
    square_free_kernel 126 = Ret k
    /\ forall p, Z.prime p -> (p | k) <-> (p | 126).
Proof. apply (square_free_kernel_primes 126). lia. Defined.

(** X5: the kernel of [m >= 1] is the largest square-free divisor of [m]:
    every positive square-free divisor of [m] divides it. *)
Theorem square_free_kernel_largest (m d : Z) :
  1 <= m -> 1 <= d -> square_free d -> (d | m) ->
  exists k : Z, square_free_kernel m = Ret k /\ (d | k) /\ d <= k.
Proof.
  intros Hm Hd Hsf Hdm.
  destruct (square_free_kernel_post m Hm) as (k & Hk & [Hk1 Hdiv Hsfk Hfull]).
  exists k. split; [done|].
  cut (d | k). { intros Hdk. split; [done|]. apply Z.divide_pos_le; [lia|done]. }
  pose proof (Z.gcd_nonneg d k) as Hg0.
  destruct (Z.gcd_divide_l d k) as [d' Hd'].
  pose proof (Z.gcd_divide_r d k) as Hgk.
  remember (Z.gcd d k) as g.
  assert (Hd'1 : 1 <= d') by nia.
  assert (Hcop : Z.coprime d' k).
  { unfold Z.coprime. pose proof (Z.gcd_nonneg d' k) as Hc0.
    pose proof (Z.gcd_divide_l d' k) as Hc1. pose proof (Z.gcd_divide_r d' k) as Hc2.
    remember (Z.gcd d' k) as c.
    assert (Hcg : (c | g)).
    { rewrite Heqg. apply Z.gcd_greatest; [|done].
      etrans; [exact Hc1|]. exists g. lia. }
    destruct (Z.lt_ge_cases 1 c) as [Hc|Hc].
    - exfalso. apply (Hsf c Hc). rewrite Hd'.
      destruct Hc1 as [u Hu], Hcg as [w Hw]. exists (u * w).
      rewrite Hu at 1. rewrite Hw at 1. ring.
    - assert (c <> 0); [|lia]. intros ->. destruct Hc1 as [u Hu]. lia. }
  assert (Habs : Z.abs d' = 1).
  { apply Hfull; [|done]. etrans; [|exact Hdm]. exists g. lia. }
  assert (d' = 1) as -> by lia. by rewrite Hd', Z.mul_1_l.
Qed.

Lemma square_free_kernel_largest_witness :
  exists k : Z, square_free_kernel 126 = Ret k /\ (21 | k) /\ 21 <= k.
Proof.
  apply (square_free_kernel_largest 126 21); [lia|lia| |exists 6; lia].
  intros k Hk Hdiv. assert (Hle : k * k <= 21) by (apply Z.divide_pos_le; [lia|done]).
  destruct Hdiv as [q Hq].
  assert (k = 2 \/ k = 3 \/ k = 4) as [-> | [-> | ->]] by nia; lia.
Defined.

(** X6: the loops of [square_free_kernel] end on every integer: 0 gives 0,
    a negative integer gives 1 (no loop is entered), and a positive
    integer gives a positive divisor of itself. *)
Theorem square_free_kernel_returns (m : Z) :
  exists k : Z,
    square_free_kernel m = Ret k
    /\ (m = 0 -> k = 0) /\ (m < 0 -> k = 1) /\ (0 < m -> 1 <= k <= m).
Proof.
  destruct (Z.lt_trichotomy m 0) as [Hneg|[->|Hpos]].
  - exists 1. split; [|lia]. unfold square_free_kernel.
    destruct (Z.eqb_spec m 0) as [|_]; [lia|].
    replace (Z.to_nat m) with 0%nat by lia. simpl.
    destruct (Z.leb_spec (2 * 2) m); [lia|]. simpl. unfold kernel_result.
    by destruct (Z.ltb_spec 1 m); [lia|].
  - exists 0. split; [done|lia].
  - destruct (square_free_kernel_post m) as (k & Hk & [Hk1 Hdiv _ _]); [lia|].
    exists k. split; [done|]. split; [lia|]. split; [lia|]. intros _.
    split; [done|]. apply Z.divide_pos_le; [lia|done].
Qed.

(** X7: [core(a, b)] raises [ZeroDivisionError] exactly on [a = b = 0];
    on every other input it returns the exact quotient [k] with
    [k * gcd(a, b)^2 = a * b], and the same value with its arguments
    exchanged. *)
Theorem core_exact (a b : Z) :
  (core a b = Raise ZeroDivisionError <-> a = 0 /\ b = 0)
  /\ (~ (a = 0 /\ b = 0) ->
      exists k : Z,
        core a b = Ret k /\ k * (Z.gcd a b * Z.gcd a b) = a * b /\ core b a = Ret k).
Proof.
  assert (Hnz : ~ (a = 0 /\ b = 0) -> exists k, core a b = Ret k).
  { intros Hab. unfold core.
    destruct (Z.eqb_spec (Z.gcd a b * Z.gcd a b) 0) as [H0|_]; [|eauto].
    exfalso. apply Hab. apply Z.gcd_eq_0. nia. }
  split.
  - split.
    + intros Hraise. destruct (Z.eq_dec a 0) as [Ha|Ha], (Z.eq_dec b 0) as [Hb|Hb];
        try done; destruct Hnz as [k Hk]; (lia || congruence).
    + by intros [-> ->].
  - intros Hab. destruct (Hnz Hab) as [k Hk]. exists k.
    split; [done|]. split; [by apply core_Ret|]. by rewrite core_comm.
Qed.

Lemma core_exact_witness :
  exists k : Z, core 6 10 = Ret k /\ k * (Z.gcd 6 10 * Z.gcd 6 10) = 6 * 10 /\ core 10 6 = Ret k.
Proof. apply (core_exact 6 10). lia. Defined.

Lemma coprime_divide_l (a b c : Z) : Z.coprime a b -> (c | a) -> Z.coprime c b.
Proof. intros Hab Hc. apply coprime_sym. apply (coprime_divide_r b a c); [by apply coprime_sym|done]. Qed.

Lemma square_free_mul_coprime (x y : Z) :
  square_free x -> square_free y -> Z.coprime x y -> square_free (x * y).
Proof.
  intros Hx Hy Hcop k Hk Hdiv.
  pose proof (Z.gcd_nonneg k x) as Hu0.
  pose proof (Z.gcd_divide_l k x) as Huk. pose proof (Z.gcd_divide_r k x) as Hux.
  remember (Z.gcd k x) as u.
  assert (Hu1 : u = 1).
  { destruct (Z.lt_ge_cases 1 u) as [Hu|Hu].
    - exfalso. apply (Hx u Hu). apply (Z.gauss _ y).
      + rewrite (Z.mul_comm y x). etrans; [|exact Hdiv].
        destruct Huk as [v Hv]. exists (v * v). rewrite Hv. ring.
      + apply Z.coprime_mul_l; by apply (coprime_divide_l x).
    - assert (u <> 0); [|lia]. intros ->. destruct Huk as [v Hv]. lia. }
  apply (Hy k Hk). apply (Z.gauss _ x); [done|].
  apply Z.coprime_mul_l; unfold Z.coprime; congruence.
Qed.

Lemma core_square_free (a b k : Z) :
  1 <= a -> 1 <= b -> square_free a -> square_free b ->
  core a b = Ret k -> 1 <= k /\ square_free k.
Proof.
  intros Ha Hb Hsa Hsb Hk%core_Ret.
  pose proof (Z.gcd_nonneg a b) as Hg0.
  assert (Hg : Z.gcd a b <> 0) by (intros [? _]%Z.gcd_eq_0; lia).
  pose proof (Z.gcd_div_gcd a b (Z.gcd a b) Hg eq_refl) as Hcop.
  destruct (Z.gcd_divide_l a b) as [a' Ha'], (Z.gcd_divide_r a b) as [b' Hb'].
  remember (Z.gcd a b) as g.
  assert (Haq : a `div` g = a') by (rewrite Ha'; by apply Z.div_mul).
  assert (Hbq : b `div` g = b') by (rewrite Hb'; by apply Z.div_mul).
  rewrite Haq, Hbq in Hcop.
  assert (Hk' : k = a' * b').
  { apply (Z.mul_reg_r _ _ (g * g)); [nia|]. rewrite Hk, Ha', Hb'. ring. }
  subst k. split; [nia|].
  apply square_free_mul_coprime; [| |done].
  - apply (square_free_divisor a); [done|]. exists g. lia.
  - apply (square_free_divisor b); [done|]. exists g. lia.
Qed.

(** X8: on two positive square-free integers [core] returns a positive
    square-free integer, which is 1 exactly when the two are equal. *)
Theorem core_of_square_free (a b : Z) :
  1 <= a -> 1 <= b -> square_free a -> square_free b ->
  exists k : Z,
    core a b = Ret k /\ 1 <= k /\ square_free k /\ (k = 1 <-> a = b).
Proof.
  intros Ha Hb Hsa Hsb. destruct (core_defined a b Ha) as [k Hk]. exists k.
  destruct (core_square_free a b k) as [Hk1 Hsk]; try done.
  split; [done|]. split; [done|]. split; [done|]. split.
  - intros ->. symmetry. apply (core_inj a b a 1); try done.
    apply core_same_argument. lia.
  - intros <-. rewrite core_same_argument in Hk by lia. congruence.
Qed.

Lemma square_free_6 : square_free 6.
Proof.
  intros k Hk Hdiv. assert (Hle : k * k <= 6) by (apply Z.divide_pos_le; [lia|done]).
  destruct Hdiv as [q Hq]. assert (k = 2) as -> by nia. lia.
Qed.

Lemma square_free_10 : square_free 10.
Proof.
  intros k Hk Hdiv. assert (Hle : k * k <= 10) by (apply Z.divide_pos_le; [lia|done]).
  destruct Hdiv as [q Hq]. assert (k = 2 \/ k = 3) as [-> | ->] by nia; lia.
Qed.

Lemma square_free_15 : square_free 15.
Proof.
  intros k Hk Hdiv. assert (Hle : k * k <= 15) by (apply Z.divide_pos_le; [lia|done]).
  destruct Hdiv as [q Hq]. assert (k = 2 \/ k = 3) as [-> | ->] by nia; lia.
Qed.

Lemma core_of_square_free_witness :
  exists k : Z,
    core 6 10 = Ret k /\ 1 <= k /\ square_free k /\ (k = 1 <-> 6 = 10).
Proof.
  apply (core_of_square_free 6 10); [lia|lia|apply square_free_6|apply square_free_10].
Defined.

Lemma square_same_core (a b c d k1 k2 : Z) :
  1 <= a -> 1 <= b -> 1 <= c -> 1 <= d ->
  square_free a -> square_free b -> square_free c -> square_free d ->
  core a b = Ret k1 -> core c d = Ret k2 ->
  perfect_square (a * b * c * d) -> k1 = k2.
Proof.
  intros Ha Hb Hc Hd Hsa Hsb Hsc Hsd Hk1 Hk2 [r Hr].
  destruct (core_square_free a b k1) as [Hk11 Hsk1]; try done.
  destruct (core_square_free c d k2) as [Hk21 Hsk2]; try done.
  pose proof (core_Ret _ _ _ Hk1) as He1. pose proof (core_Ret _ _ _ Hk2) as He2.
  pose proof (Z.gcd_nonneg a b) as Hg0. pose proof (Z.gcd_nonneg c d) as Hh0.
  assert (Hg : Z.gcd a b <> 0) by (intros [? _]%Z.gcd_eq_0; lia).
  assert (Hh : Z.gcd c d <> 0) by (intros [? _]%Z.gcd_eq_0; lia).
  remember (Z.gcd a b) as g. remember (Z.gcd c d) as h.
  apply (square_free_part_unique k1 k2 (Z.abs r) (k2 * g * h)); try done; [nia|nia|].
  rewrite <- Z.abs_mul, (Z.abs_eq (r * r)) by nia. rewrite <- Hr.
  transitivity (k2 * ((k1 * (g * g)) * (k2 * (h * h)))); [ring|].
  rewrite He1, He2. ring.
Qed.

(** X9: for positive square-free [a], [b], [c], [d] the pairs [(a, b)] and
    [(c, d)] have the same core exactly when [a * b * c * d] is a perfect
    square; this is why one bucket of [pair_groups] holds the pairs that
    [compute_f_sf] may join into a hyperedge. *)
Theorem same_core_iff_square (a b c d : Z) :
  1 <= a -> 1 <= b -> 1 <= c -> 1 <= d ->
  square_free a -> square_free b -> square_free c -> square_free d ->
  core a b = core c d <-> is_square (a * b * c * d) = true.
Proof.
  intros Ha Hb Hc Hd Hsa Hsb Hsc Hsd.
  destruct (core_defined a b Ha) as [k1 Hk1], (core_defined c d Hc) as [k2 Hk2].
  rewrite is_square_spec. split.
  - intros Heq. apply (same_core_square a b c d k1); [done|congruence].
  - intros Hsq. rewrite Hk1, Hk2. f_equal.
    by apply (square_same_core a b c d).
Qed.

Lemma same_core_iff_square_witness :
  core 1 6 = core 10 15 <-> is_square (1 * 6 * 10 * 15) = true.
Proof.
  apply (same_core_iff_square 1 6 10 15); try lia.
  - apply square_free_1.
  - apply square_free_6.
  - apply square_free_10.
  - apply square_free_15.
Defined.

(** * Further properties of the admissibility check *)

Lemma elem_of_combinations {A : Type} (l : list A) (k : nat) (c : list A) :
  c ∈ combinations l k <-> c `sublist_of` l /\ length c = k.
Proof.
  revert k c. induction l as [|x l IH]; intros [|k] c; simpl.
  - rewrite list_elem_of_singleton, sublist_nil_r. split; [intros ->; by split|by intros [-> _]].
  - rewrite elem_of_nil, sublist_nil_r. split; [done|]. by intros [-> ?].
  - rewrite list_elem_of_singleton. split.
    + intros ->. split; [apply sublist_nil_l|done].
    + intros [_ Hlen]. by destruct c.
  - rewrite elem_of_app, list_elem_of_fmap, sublist_cons_r. setoid_rewrite IH. split.
    + intros [(c' & -> & Hsub & Hlen)|[Hsub Hlen]].
      * split; [right; eauto|]. simpl. lia.
      * split; [by left|done].
    + intros [[Hsub|(c' & -> & Hsub)] Hlen].
      * right. done.
      * left. exists c'. split; [done|]. split; [done|]. simpl in Hlen. lia.
Qed.

Lemma elem_of_all_pairs_sublist {A : Type} (l : list A) (x y : A) :
  (x, y) ∈ all_pairs l <-> [x; y] `sublist_of` l.
Proof.
  induction l as [|a l IH]; simpl.
  - rewrite elem_of_nil, sublist_nil_r. done.
  - rewrite elem_of_app, list_elem_of_fmap, sublist_cons_r, IH. split.
    + intros [(z & [= -> ->] & Hz)|Hsub]; [|by left].
      right. exists [z]. split; [done|]. by apply singleton_sublist_l.
    + intros [Hsub|(l' & [= -> <-] & Hsub)]; [by right|].
      left. exists y. split; [done|]. by apply singleton_sublist_l.
Qed.

Lemma sublist_StronglySorted {A : Type} (R : relation A) (c l : list A) :
  c `sublist_of` l -> StronglySorted R l -> StronglySorted R c.
Proof.
  induction 1 as [|x c l Hsub IH|x c l Hsub IH]; intros Hl.
  - constructor.
  - apply StronglySorted_inv in Hl as [Hl Hx]. constructor; [by apply IH|].
    apply Forall_forall. intros y Hy. rewrite Forall_forall in Hx.
    apply Hx. by apply (elem_of_sublist c).
  - apply StronglySorted_inv in Hl as [Hl _]. by apply IH.
Qed.

(** In a strictly ascending list the sub-lists are the strictly ascending
    selections of its elements. *)
Lemma sublist_of_sorted (c l : list Z) :
  StronglySorted Z.lt l ->
  c `sublist_of` l <-> StronglySorted Z.lt c /\ forall x, x ∈ c -> x ∈ l.
Proof.
  intros Hl. split.
  - intros Hsub. split; [by apply (sublist_StronglySorted _ c l)|].
    intros x Hx. by apply (elem_of_sublist c).
  - revert c. induction Hl as [|a l Hl IH Ha]; intros c [Hc Hin].
    + destruct c as [|y c]; [done|].
      by pose proof (Hin y (list_elem_of_here _ _)) as ?%elem_of_nil.
    + destruct c as [|y c]; [apply sublist_nil_l|].
      apply StronglySorted_inv in Hc as [Hc Hy].
      rewrite Forall_forall in Ha, Hy.
      destruct (decide (y = a)) as [->|Hne].
      * apply sublist_skip, IH. split; [done|].
        intros x Hx. specialize (Hy x Hx).
        pose proof (Hin x (list_elem_of_further _ _ _ Hx)) as [?|Hxl]%elem_of_cons; [lia|done].
      * apply sublist_cons, IH. split; [by constructor; [|apply Forall_forall]|].
        assert (Hya : a < y).
        { pose proof (Hin y (list_elem_of_here _ _)) as [?|Hyl]%elem_of_cons; [done|].
          by apply Ha. }
        intros x [->|Hx]%elem_of_cons.
        -- pose proof (Hin y (list_elem_of_here _ _)) as [?|Hyl]%elem_of_cons; done.
        -- specialize (Hy x Hx).
           pose proof (Hin x (list_elem_of_further _ _ _ Hx)) as [?|Hxl]%elem_of_cons; [lia|done].
Qed.

Lemma NoDup_StronglySorted_lt (l : list Z) : StronglySorted Z.lt l -> NoDup l.
Proof.
  induction 1 as [|x l Hl IH Hx]; constructor; [|done].
  intros Hin. rewrite Forall_forall in Hx. specialize (Hx x Hin). lia.
Qed.

Lemma check_admissible_clauses (A : list Z) :
  NoDup A ->
  check_admissible A = true
  <-> (forall a b c d, a ∈ A -> b ∈ A -> c ∈ A -> d ∈ A ->
         a < b -> b < c -> c < d ->
         is_square (a * b * c * d) = true -> a * d = b * c)
      /\ (forall x y, x ∈ A -> y ∈ A -> x < y ->
            (is_square (x * x * x * y) = true -> x * y = x * x)
            /\ (is_square (x * y * y * y) = true -> x * y = y * y)).
Proof.
  intros Hnd. pose proof (sorted_strict A Hnd) as Hs.
  assert (Hin : forall x, x ∈ sorted A <-> x ∈ A) by (intros x; apply elem_of_sorted_by).
  unfold check_admissible. rewrite andb_true_iff, !forallb_forall.
  split; intros [Hquad Hpair]; split.
  - intros a b c d Ha Hb Hc Hd Hab Hbc Hcd Hsq.
    assert (Hq : quad_ok [a; b; c; d] = true).
    { apply Hquad, list_elem_of_In, elem_of_combinations. split; [|done].
      apply (sublist_of_sorted _ _ Hs). split.
      - repeat constructor; lia.
      - intros x Hx. apply Hin.
        repeat (apply elem_of_cons in Hx as [->|Hx]; [done|]). by apply elem_of_nil in Hx. }
    simpl in Hq. rewrite Hsq in Hq. by apply Z.eqb_eq.
  - intros x y Hx Hy Hxy.
    assert (Hp : pair_ok (x, y) = true).
    { apply Hpair, list_elem_of_In, elem_of_all_pairs_sublist.
      apply (sublist_of_sorted _ _ Hs). split.
      - repeat constructor; lia.
      - intros z Hz. apply Hin.
        repeat (apply elem_of_cons in Hz as [->|Hz]; [done|]). by apply elem_of_nil in Hz. }
    simpl in Hp. apply andb_true_iff in Hp as [Hp1 Hp2].
    split; intros Hsq; [rewrite Hsq in Hp1|rewrite Hsq in Hp2]; by apply Z.eqb_eq.
  - intros q [Hsub Hlen]%list_elem_of_In%elem_of_combinations.
    destruct q as [|a [|b [|c [|d [|]]]]]; try done.
    apply (sublist_of_sorted _ _ Hs) in Hsub as [Hq Hall]. simpl.
    destruct (is_square (a * b * c * d)) eqn:Hsq; [|done]. apply Z.eqb_eq.
    repeat match goal with
           | H : StronglySorted _ (_ :: _) |- _ => apply StronglySorted_inv in H as [? ?]
           | H : Forall _ (_ :: _) |- _ => apply Forall_cons in H as [? ?]
           end.
    apply Hquad; try done; apply Hin, Hall;
      repeat (first [apply list_elem_of_here | apply list_elem_of_further]).
  - intros [x y] Hsub%list_elem_of_In%elem_of_all_pairs_sublist.
    apply (sublist_of_sorted _ _ Hs) in Hsub as [Hq Hall].
    apply StronglySorted_inv in Hq as [_ [Hxy _]%Forall_cons].
    destruct (Hpair x y) as [H1 H2]; [apply Hin, Hall..|done|].
    + apply list_elem_of_here.
    + apply list_elem_of_further, list_elem_of_here.
    + simpl. apply andb_true_iff. split.
      * destruct (is_square (x * x * x * y)); [|done]. apply Z.eqb_eq. by apply H1.
      * destruct (is_square (x * y * y * y)); [|done]. apply Z.eqb_eq. by apply H2.
Qed.

(** X10: on an input without repetition (a set), [check_admissible] returns
    [True] exactly when every four elements [a < b < c < d] with a square
    product satisfy [a * d = b * c], and every two elements [x < y] satisfy
    the two clauses for the quadruples [(x, x, x, y)] and [(x, y, y, y)]. *)
Theorem check_admissible_iff (A : list Z) :
  NoDup A ->
  check_admissible A = true
  <-> (forall a b c d, a ∈ A -> b ∈ A -> c ∈ A -> d ∈ A ->
         a < b -> b < c -> c < d ->
         is_square (a * b * c * d) = true -> a * d = b * c)
      /\ (forall x y, x ∈ A -> y ∈ A -> x < y ->
            (is_square (x * x * x * y) = true -> x * y = x * x)
            /\ (is_square (x * y * y * y) = true -> x * y = y * y)).
Proof. apply check_admissible_clauses. Qed.

Lemma check_admissible_iff_witness :
  check_admissible [3; 5; 14; 210] = true
  <-> (forall a b c d, a ∈ [3; 5; 14; 210] -> b ∈ [3; 5; 14; 210] ->
         c ∈ [3; 5; 14; 210] -> d ∈ [3; 5; 14; 210] ->
         a < b -> b < c -> c < d ->
         is_square (a * b * c * d) = true -> a * d = b * c)
      /\ (forall x y, x ∈ [3; 5; 14; 210] -> y ∈ [3; 5; 14; 210] -> x < y ->
            (is_square (x * x * x * y) = true -> x * y = x * x)
            /\ (is_square (x * y * y * y) = true -> x * y = y * y)).
Proof.
  apply (check_admissible_iff [3; 5; 14; 210]).
  apply (NoDup_StronglySorted_lt [3; 5; 14; 210]). repeat constructor; lia.
Defined.

(** * Further properties of the hypergraph builder *)

Lemma group_append_keeps (k : Z) (p : Z * Z) (groups : list (Z * list (Z * Z)))
  (k' : Z) (ps : list (Z * Z)) :
  (k', ps) ∈ groups ->
  exists ps', (k', ps') ∈ group_append k p groups /\ forall q, q ∈ ps -> q ∈ ps'.
Proof.
  induction groups as [|[k0 ps0] groups IH]; simpl; [by intros ?%elem_of_nil|].
  intros [[= -> ->]|Hin]%elem_of_cons.
  - case_bool_decide as Hk.
    + exists (ps0 ++ [p]). split; [apply list_elem_of_here|].
      intros q Hq. apply elem_of_app. by left.
    + exists ps0. split; [apply list_elem_of_here|done].
  - case_bool_decide as Hk.
    + exists ps. split; [by apply list_elem_of_further|done].
    + destruct (IH Hin) as (ps' & Hin' & Hsub). exists ps'.
      split; [by apply list_elem_of_further|done].
Qed.

Lemma group_append_adds (k : Z) (p : Z * Z) (groups : list (Z * list (Z * Z))) :
  exists ps', (k, ps') ∈ group_append k p groups /\ p ∈ ps'.
Proof.
  induction groups as [|[k0 ps0] groups IH]; simpl.
  - exists [p]. split; apply list_elem_of_here.
  - case_bool_decide as Hk.
    + subst k0. exists (ps0 ++ [p]). split; [apply list_elem_of_here|].
      apply elem_of_app. right. apply list_elem_of_here.
    + destruct IH as (ps' & Hin & Hp). exists ps'.
      split; [by apply list_elem_of_further|done].
Qed.

Lemma group_append_keys (k : Z) (p : Z * Z) (groups : list (Z * list (Z * Z))) :
  (group_append k p groups).*1
  = if decide (k ∈ groups.*1) then groups.*1 else groups.*1 ++ [k].
Proof.
  induction groups as [|[k0 ps0] groups IH]; cbn [group_append].
  - destruct (decide (k ∈ [])) as [?%elem_of_nil|]; done.
  - case_bool_decide as Hk; rewrite !fmap_cons; cbn [fst].
    + subst k0. rewrite decide_True; [done|apply list_elem_of_here].
    + rewrite IH. destruct (decide (k ∈ groups.*1)) as [Hin|Hnin].
      * rewrite decide_True; [done|by apply list_elem_of_further].
      * rewrite decide_False; [done|]. by intros [?|?]%elem_of_cons.
Qed.

Lemma build_pair_groups_full_prefix (l : list (Z * Z)) (groups : list (Z * list (Z * Z))) :
  foldl_outcome (fun groups p => k ← core p.1 p.2; Ret (group_append k p groups)) [] l
    = Ret groups ->
  groups_full l groups.
Proof.
  revert groups. induction l as [|p l IH] using rev_ind; intros groups.
  - simpl. intros [= <-]. split; [constructor|]. by intros p ?%elem_of_nil.
  - rewrite foldl_outcome_snoc.
    destruct (foldl_outcome _ [] l) as [groups0| |] eqn:Hfold; [|done..]. simpl.
    destruct (core p.1 p.2) as [k| |] eqn:Hk; [|done..]. simpl. intros [= <-].
    destruct (IH groups0 eq_refl) as [Hkeys Hall]. split.
    + rewrite group_append_keys. destruct (decide (k ∈ groups0.*1)); [done|].
      apply NoDup_app. split; [done|]. split; [|apply NoDup_singleton].
      by intros x Hx ->%list_elem_of_singleton.
    + intros q [Hq| ->%list_elem_of_singleton]%elem_of_app.
      * destruct (Hall q Hq) as (kq & pairs & Hcore & Hin & Hqp).
        destruct (group_append_keeps k p groups0 kq pairs Hin) as (ps' & Hin' & Hsub).
        exists kq, ps'. auto.
      * destruct (group_append_adds k p groups0) as (ps' & Hin & Hp).
        by exists k, ps'.
Qed.

Lemma NoDup_keys_unique {A B : Type} (l : list (A * B)) (k : A) (v1 v2 : B) :
  NoDup l.*1 -> (k, v1) ∈ l -> (k, v2) ∈ l -> v1 = v2.
Proof.
  induction l as [|[k0 v0] l IH]; simpl; [by intros _ ?%elem_of_nil|].
  intros [Hk0 Hnd]%NoDup_cons H1 H2.
  assert (Hfresh : forall v, (k0, v) ∉ l).
  { intros v Hin. apply Hk0. apply list_elem_of_fmap. by exists (k0, v). }
  apply elem_of_cons in H1 as [H1|H1], H2 as [H2|H2].
  - congruence.
  - injection H1 as -> ->. by destruct (Hfresh v2).
  - injection H2 as -> ->. by destruct (Hfresh v1).
  - by apply IH.
Qed.

Lemma all_pairs_total {A : Type} (l : list A) (x y : A) :
  x ∈ l -> y ∈ l -> x <> y -> (x, y) ∈ all_pairs l \/ (y, x) ∈ all_pairs l.
Proof.
  induction l as [|a l IH]; simpl; [by intros ?%elem_of_nil|].
  intros [->|Hx]%elem_of_cons [->|Hy]%elem_of_cons Hne; try done.
  - left. apply elem_of_app. left. by apply list_elem_of_fmap_2.
  - right. apply elem_of_app. left. by apply list_elem_of_fmap_2.
  - destruct (IH Hx Hy Hne); [left|right]; apply elem_of_app; by right.
Qed.

Lemma sorted_of_sorted (l : list Z) : StronglySorted Z.lt l -> sorted l = l.
Proof.
  intros Hl. apply (StronglySorted_unique Z.le).
  - apply sorted_StronglySorted.
  - induction Hl as [|x k Hk IH Hx]; constructor; [done|].
    eapply Forall_impl; [exact Hx|]. intros y Hy. simpl in Hy. lia.
  - apply (sorted_by_perm Z.leb).
Qed.

Lemma edge_of_pairs_complete (p1 p2 : Z * Z) (a b c d : Z) :
  [a; b; c; d] ≡ₚ [p1.1; p1.2; p2.1; p2.2] ->
  a < b -> b < c -> c < d -> a * d <> b * c ->
  edge_of_pairs p1 p2 = Some (a, b, c, d).
Proof.
  intros Hperm Hab Hbc Hcd Hne.
  assert (Hs : StronglySorted Z.lt [a; b; c; d]) by (repeat constructor; lia).
  assert (Hnd : NoDup [p1.1; p1.2; p2.1; p2.2]).
  { rewrite <- Hperm. by apply NoDup_StronglySorted_lt. }
  unfold edge_of_pairs.
  assert (Hset : ({[ p1.1; p1.2; p2.1; p2.2 ]} : gset Z)
                 = list_to_set [p1.1; p1.2; p2.1; p2.2]) by set_solver.
  rewrite Hset. rewrite bool_decide_true by (by rewrite size_list_to_set).
  rewrite (sorted_perm_eq _ [a; b; c; d]), (sorted_of_sorted _ Hs).
  - by destruct (Z.eqb_spec (a * d) (b * c)).
  - by rewrite elements_list_to_set.
Qed.

Lemma all_pairs_length {A : Type} (l : list A) (p : A * A) :
  p ∈ all_pairs l -> (2 <= length l)%nat.
Proof.
  destruct l as [|x [|y l]]; simpl; [by intros ?%elem_of_nil..|lia].
Qed.

Lemma build_edges_intro (groups : list (Z * list (Z * Z))) (k : Z) (pairs : list (Z * Z))
  (p1 p2 : Z * Z) (e : edge) :
  (k, pairs) ∈ groups -> (p1, p2) ∈ all_pairs pairs -> edge_of_pairs p1 p2 = Some e ->
  e ∈ build_edges groups.
Proof.
  intros Hg Hpp He. unfold build_edges. apply list_elem_of_bind.
  exists (k, pairs). split; [|done]. unfold bucket_edges. simpl.
  pose proof (all_pairs_length _ _ Hpp) as Hlen.
  destruct (Nat.ltb_spec (length pairs) 2); [lia|].
  apply list_elem_of_omap. by exists (p1, p2).
Qed.

Lemma all_pairs_intro (V : list Z) (x y : Z) :
  StronglySorted Z.lt V -> x ∈ V -> y ∈ V -> x < y -> (x, y) ∈ all_pairs V.
Proof.
  intros HV Hx Hy Hxy. apply elem_of_all_pairs_sublist, (sublist_of_sorted _ _ HV).
  split; [repeat constructor; lia|].
  intros z Hz. repeat (apply elem_of_cons in Hz as [->|Hz]; [done|]).
  by apply elem_of_nil in Hz.
Qed.

Lemma build_edges_complete (n : Z) (V : list Z) (groups : list (Z * list (Z * Z))) (e : edge) :
  sieve_square_free n = Ret V -> build_pair_groups V = Ret groups ->
  violating n e -> e ∈ build_edges groups.
Proof.
  intros HV Hgroups. destruct e as [[[a b] c] d].
  intros (Hab & Hbc & Hcd & Hall & Hsq & Hne).
  pose proof (sieve_strictly_sorted n V HV) as Hsorted.
  pose proof (build_pair_groups_full_prefix _ _ Hgroups) as [Hkeys Hfull].
  repeat match goal with
         | H : Forall _ (_ :: _) |- _ => apply Forall_cons in H as [[? ?] ?]
         end.
  assert (HinV : forall v, 1 <= v <= n -> square_free v -> v ∈ V).
  { intros v ? ?. by apply (elem_of_sieve n v V HV). }
  destruct (Hfull (a, b)) as (k1 & ps1 & Hk1 & Hg1 & Hp1);
    [apply all_pairs_intro; auto|].
  destruct (Hfull (c, d)) as (k2 & ps2 & Hk2 & Hg2 & Hp2);
    [apply all_pairs_intro; auto|].
  simpl in Hk1, Hk2.
  assert (k1 = k2) as <- by (apply (square_same_core a b c d); (done || lia)).
  assert (ps1 = ps2) as <- by (by apply (NoDup_keys_unique groups k1)).
  destruct (all_pairs_total ps1 (a, b) (c, d)) as [Hpp|Hpp]; try done.
  - intros [= -> ->]. lia.
  - apply (build_edges_intro groups k1 ps1 (a, b) (c, d)); [done..|].
    by apply edge_of_pairs_complete.
  - apply (build_edges_intro groups k1 ps1 (c, d) (a, b)); [done..|].
    apply edge_of_pairs_complete; try done. simpl.
    change [c; d; a; b] with ([c; d] ++ [a; b]).
    change [a; b; c; d] with ([a; b] ++ [c; d]). apply Permutation_app_comm.
Qed.

(** X11: on positive integers (as the sieve returns them) the pairs are
    grouped without loss: no key is held twice, every bucket lists, in
    generation order, pairs whose core is its key, and every pair
    [(V[i], V[j])], [i < j], is in the bucket of its core. *)
Theorem build_pair_groups_partition (V : list Z) :
  Forall (fun x => 1 <= x) V ->
  exists groups : list (Z * list (Z * Z)),
    build_pair_groups V = Ret groups
    /\ NoDup groups.*1
    /\ (forall k pairs, (k, pairs) ∈ groups ->
          pairs `sublist_of` all_pairs V
          /\ forall p, p ∈ pairs -> core p.1 p.2 = Ret k)
    /\ (forall p, p ∈ all_pairs V ->
          exists k pairs, core p.1 p.2 = Ret k /\ (k, pairs) ∈ groups /\ p ∈ pairs).
Proof.
  intros HV. destruct (build_pair_groups_spec V HV) as (groups & Hret & Hok).
  exists groups. split; [done|].
  destruct (build_pair_groups_full_prefix _ _ Hret) as [Hkeys Hfull].
  split; [done|]. split; [exact Hok|done].
Qed.

Lemma build_pair_groups_partition_witness :
  exists groups : list (Z * list (Z * Z)),
    build_pair_groups [1; 2; 3; 6] = Ret groups
    /\ NoDup groups.*1
    /\ (forall k pairs, (k, pairs) ∈ groups ->
          pairs `sublist_of` all_pairs [1; 2; 3; 6]
          /\ forall p, p ∈ pairs -> core p.1 p.2 = Ret k)
    /\ (forall p, p ∈ all_pairs [1; 2; 3; 6] ->
          exists k pairs, core p.1 p.2 = Ret k /\ (k, pairs) ∈ groups /\ p ∈ pairs).
Proof.
  apply (build_pair_groups_partition [1; 2; 3; 6]). repeat constructor; lia.
Defined.

(** X12: for positive [n] the returned edges are exactly the violating
    quadruples: a 4-tuple is in [edges] if and only if it is strictly
    ascending, its entries are square-free integers of [[1, n]], their
    product is a perfect square and [a * d <> b * c]. *)
Theorem compute_f_sf_edges_exact (n : Z) :
  1 <= n ->
  exists (f_sf : Z) (edges : list edge) (cover : gset Z),
    compute_f_sf n = Ret (f_sf, edges, cover)
    /\ forall a b c d,
         (a, b, c, d) ∈ edges
         <-> a < b /\ b < c /\ c < d
             /\ Forall (fun v => 1 <= v <= n /\ square_free v) [a; b; c; d]
             /\ perfect_square (a * b * c * d)
             /\ a * d <> b * c.
Proof.
  intros Hn. destruct (compute_f_sf_spec n) as (V & groups & cover & [HV Hg Hok Hval Hvert Hcov Hmin]); [lia|].
  eexists _, _, cover. split; [done|]. intros a b c d. split.
  - by apply (build_edges_violating n V groups (a, b, c, d)).
  - by apply (build_edges_complete n V groups (a, b, c, d)).
Qed.

Lemma compute_f_sf_edges_exact_witness :
  exists (f_sf : Z) (edges : list edge) (cover : gset Z),
    compute_f_sf 15 = Ret (f_sf, edges, cover)
    /\ forall a b c d,
         (a, b, c, d) ∈ edges
         <-> a < b /\ b < c /\ c < d
             /\ Forall (fun v => 1 <= v <= 15 /\ square_free v) [a; b; c; d]
             /\ perfect_square (a * b * c * d)
             /\ a * d <> b * c.
Proof. apply (compute_f_sf_edges_exact 15). lia. Defined.

(** * [compute_f_sf] and [check_admissible] *)

Lemma cube_pair_not_square (x y : Z) :
  1 <= x -> 1 <= y -> square_free x -> square_free y -> x <> y ->
  is_square (x * x * x * y) = false /\ is_square (x * y * y * y) = false.
Proof.
  intros Hx Hy Hsx Hsy Hne. split.
  - destruct (is_square (x * x * x * y)) eqn:Hsq; [|done]. exfalso.
    apply is_square_spec in Hsq as [r Hr]. apply Hne.
    apply (square_free_part_unique x y (Z.abs r) (x * y)); try done; [nia|nia|].
    rewrite <- Z.abs_mul, (Z.abs_eq (r * r)) by nia. rewrite <- Hr. ring.
  - destruct (is_square (x * y * y * y)) eqn:Hsq; [|done]. exfalso.
    apply is_square_spec in Hsq as [r Hr]. apply Hne. symmetry.
    apply (square_free_part_unique y x (Z.abs r) (x * y)); try done; [nia|nia|].
    rewrite <- Z.abs_mul, (Z.abs_eq (r * r)) by nia. rewrite <- Hr. ring.
Qed.

Lemma check_admissible_quad_free (S : list Z) :
  NoDup S -> Forall (fun x => 1 <= x /\ square_free x) S ->
  check_admissible S = true <-> quad_free S.
Proof.
  intros Hnd Hall. rewrite (check_admissible_clauses S Hnd). split; [by intros [? _]|].
  intros Hq. split; [done|]. intros x y Hx Hy Hxy.
  rewrite Forall_forall in Hall.
  destruct (Hall x Hx) as [Hx1 Hsx], (Hall y Hy) as [Hy1 Hsy].
  destruct (cube_pair_not_square x y) as [-> ->]; try done. lia.
Qed.

(** X13: on a set of positive square-free integers the two pair clauses of
    [check_admissible] never fire: it returns [True] exactly when every
    four elements [a < b < c < d] with a square product satisfy
    [a * d = b * c]. *)
Theorem check_admissible_square_free (S : list Z) :
  NoDup S -> Forall (fun x => 1 <= x /\ square_free x) S ->
  check_admissible S = true
  <-> forall a b c d, a ∈ S -> b ∈ S -> c ∈ S -> d ∈ S ->
        a < b -> b < c -> c < d ->
        is_square (a * b * c * d) = true -> a * d = b * c.
Proof. apply check_admissible_quad_free. Qed.

Lemma check_admissible_square_free_witness :
  check_admissible [1; 6; 10; 15] = true
  <-> forall a b c d, a ∈ [1; 6; 10; 15] -> b ∈ [1; 6; 10; 15] ->
        c ∈ [1; 6; 10; 15] -> d ∈ [1; 6; 10; 15] ->
        a < b -> b < c -> c < d ->
        is_square (a * b * c * d) = true -> a * d = b * c.
Proof.
  apply (check_admissible_square_free [1; 6; 10; 15]).
  - apply (NoDup_StronglySorted_lt [1; 6; 10; 15]). repeat constructor; lia.
  - repeat constructor; try lia.
    + apply square_free_1.
    + apply square_free_6.
    + apply square_free_10.
    + apply square_free_15.
Defined.

Section duality.
Variables (n : Z) (V : list Z) (groups : list (Z * list (Z * Z))).
Hypothesis HV : sieve_square_free n = Ret V.
Hypothesis Hgroups : build_pair_groups V = Ret groups.
Hypothesis Hok : groups_ok (all_pairs V) groups.

Lemma subset_elements_ok (S : gset Z) :
  S ⊆ list_to_set V ->
  NoDup (elements S) /\ Forall (fun x => 1 <= x /\ square_free x) (elements S).
Proof.
  intros HS. split; [apply NoDup_elements|].
  apply Forall_forall. intros x Hx%elem_of_elements.
  apply HS, elem_of_list_to_set in Hx. apply (elem_of_sieve n x V HV) in Hx. split; [lia|tauto].
Qed.

(** A set of vertices is admissible exactly when its complement in [V]
    covers every edge. *)
Lemma admissible_iff_cover (S : gset Z) :
  S ⊆ list_to_set V ->
  check_admissible (elements S) = true
  <-> is_cover (list_to_set V ∖ S) (build_edges groups).
Proof.
  intros HS. destruct (subset_elements_ok S HS) as [Hnd Hall].
  rewrite (check_admissible_quad_free _ Hnd Hall). split.
  - intros Hq [[[a b] c] d] He.
    pose proof (build_edges_violating n V groups _ HV Hok He)
      as (Hab & Hbc & Hcd & Hsf & Hsq%is_square_spec & Hne).
    assert (HinV : forall v, v ∈ [a; b; c; d] -> v ∈ (list_to_set V : gset Z)).
    { intros v Hv. apply elem_of_list_to_set, (elem_of_sieve n v V HV).
      rewrite Forall_forall in Hsf. by apply Hsf. }
    assert (Hout : forall v, v ∈ [a; b; c; d] -> v ∉ S ->
              exists w, w ∈ edge_vertices (a, b, c, d) /\ w ∈ list_to_set V ∖ S).
    { intros v Hv Hnot. exists v. split; [done|]. apply elem_of_difference. auto. }
    destruct (decide (a ∈ S)) as [Ha|Ha]; [|apply (Hout a); [set_solver|done]].
    destruct (decide (b ∈ S)) as [Hb|Hb]; [|apply (Hout b); [set_solver|done]].
    destruct (decide (c ∈ S)) as [Hc|Hc]; [|apply (Hout c); [set_solver|done]].
    destruct (decide (d ∈ S)) as [Hd|Hd]; [|apply (Hout d); [set_solver|done]].
    exfalso. apply Hne. apply Hq; try done; by apply elem_of_elements.
  - intros Hcov a b c d Ha%elem_of_elements Hb%elem_of_elements
           Hc%elem_of_elements Hd%elem_of_elements Hab Hbc Hcd Hsq.
    destruct (Z.eq_dec (a * d) (b * c)) as [|Hne]; [done|]. exfalso.
    assert (He : (a, b, c, d) ∈ build_edges groups).
    { apply (build_edges_complete n V groups _ HV Hgroups).
      do 3 (split; [done|]). split; [|split; [by apply is_square_spec|done]].
      apply Forall_forall. intros v Hv. apply (elem_of_sieve n v V HV).
      assert (v ∈ (list_to_set V : gset Z)) as ?%elem_of_list_to_set; [|done].
      apply HS.
      repeat (apply elem_of_cons in Hv as [->|Hv]; [done|]). by apply elem_of_nil in Hv. }
    destruct (Hcov _ He) as (v & Hv & [_ Hnot]%elem_of_difference). apply Hnot.
    simpl in Hv. repeat (apply elem_of_cons in Hv as [->|Hv]; [done|]).
    by apply elem_of_nil in Hv.
Qed.
End duality.

(** X14: [f_sf(n)] is the size of a largest admissible set of vertices:
    the vertices outside the returned cover form a set of [f_sf] elements
    on which [check_admissible] returns [True], and no set of vertices on
    which it returns [True] has more elements. *)
Theorem compute_f_sf_maximum_admissible (n : Z) :
  1 <= n ->
  exists (f_sf : Z) (edges : list edge) (cover : gset Z) (V : list Z),
    compute_f_sf n = Ret (f_sf, edges, cover)
    /\ sieve_square_free n = Ret V
    /\ check_admissible (elements (list_to_set V ∖ cover)) = true
    /\ Z.of_nat (size (list_to_set V ∖ cover : gset Z)) = f_sf
    /\ forall S : gset Z,
         S ⊆ list_to_set V -> check_admissible (elements S) = true ->
         Z.of_nat (size S) <= f_sf.
Proof.
  intros Hn. destruct (compute_f_sf_spec n) as (V & groups & cover & [HV Hg Hok Hval Hvert Hcov Hmin]); [lia|].
  eexists _, _, cover, V. split; [done|]. split; [done|].
  assert (HsizeV : size (list_to_set V : gset Z) = length V).
  { apply size_list_to_set, NoDup_StronglySorted_lt. by apply (sieve_strictly_sorted n). }
  split; [|split].
  - apply (admissible_iff_cover n V groups); [done..|set_solver|].
    replace (list_to_set V ∖ (list_to_set V ∖ cover)) with cover; [done|].
    apply set_eq. intros x. rewrite !elem_of_difference. split.
    + intros Hx. split; [by apply Hvert|tauto].
    + intros [HxV Hnot]. destruct (decide (x ∈ cover)) as [|Hx]; [done|].
      by destruct Hnot.
  - rewrite size_difference by done. apply subseteq_size in Hvert. lia.
  - intros S HS Hadm.
    apply (admissible_iff_cover n V groups) in Hadm; [|done..].
    apply Hmin in Hadm. rewrite size_difference in Hadm by done.
    apply subseteq_size in HS. lia.
Qed.

Lemma compute_f_sf_maximum_admissible_witness :
  exists (f_sf : Z) (edges : list edge) (cover : gset Z) (V : list Z),
    compute_f_sf 15 = Ret (f_sf, edges, cover)
    /\ sieve_square_free 15 = Ret V
    /\ check_admissible (elements (list_to_set V ∖ cover)) = true
    /\ Z.of_nat (size (list_to_set V ∖ cover : gset Z)) = f_sf
    /\ forall S : gset Z,
         S ⊆ list_to_set V -> check_admissible (elements S) = true ->
         Z.of_nat (size S) <= f_sf.
Proof. apply (compute_f_sf_maximum_admissible 15). lia. Defined.

(** X15: 15 is the first bound with a hyperedge.  For [1 <= n < 15]
    [compute_f_sf] finds no edge and returns [len(V)] with the empty cover;
    for [n >= 15] the edges contain [(1, 6, 10, 15)], the cover is not
    empty and [f_sf < len(V)]. *)
Theorem compute_f_sf_first_edge (n : Z) :
  1 <= n ->
  exists (f_sf : Z) (edges : list edge) (cover : gset Z) (V : list Z),
    compute_f_sf n = Ret (f_sf, edges, cover)
    /\ sieve_square_free n = Ret V
    /\ (n < 15 -> edges = [] /\ cover = ∅ /\ f_sf = Z.of_nat (length V))
    /\ (15 <= n -> (1, 6, 10, 15) ∈ edges /\ cover <> ∅ /\ f_sf < Z.of_nat (length V)).
Proof.
  intros Hn. destruct (Z.lt_ge_cases n 15) as [Hsmall|Hbig].
  - assert (Hcases : n = 1 \/ n = 2 \/ n = 3 \/ n = 4 \/ n = 5 \/ n = 6 \/ n = 7
                     \/ n = 8 \/ n = 9 \/ n = 10 \/ n = 11 \/ n = 12 \/ n = 13 \/ n = 14)
      by lia.
    repeat (destruct Hcases as [-> | Hcases]);
      try subst n;
      (eexists _, _, _, _; split; [vm_compute; reflexivity|];
       split; [vm_compute; reflexivity|]; split; [by intros _|intros; lia]).
  - destruct (compute_f_sf_spec n) as (V & groups & cover & [HV Hg Hok Hval Hvert Hcov Hmin]);
      [lia|].
    eexists _, _, cover, V. split; [done|]. split; [done|]. split; [lia|]. intros _.
    assert (He : (1, 6, 10, 15) ∈ build_edges groups).
    { apply (build_edges_complete n V groups _ HV Hg).
      do 3 (split; [lia|]). split; [|split; [by exists 30|lia]].
      repeat constructor; try lia.
      - apply square_free_1.
      - apply square_free_6.
      - apply square_free_10.
      - apply square_free_15. }
    split; [done|].
    destruct (Hcov _ He) as (v & _ & Hv).
    assert (Hne : cover <> ∅) by (intros ->; set_solver).
    split; [done|].
    assert (size cover <> 0%nat); [|lia].
    intros Hsize%size_empty_inv. apply Hne. by apply leibniz_equiv.
Qed.

Lemma compute_f_sf_first_edge_witness :
  exists (f_sf : Z) (edges : list edge) (cover : gset Z) (V : list Z),
    compute_f_sf 15 = Ret (f_sf, edges, cover)
    /\ sieve_square_free 15 = Ret V
    /\ (15 < 15 -> edges = [] /\ cover = ∅ /\ f_sf = Z.of_nat (length V))
    /\ (15 <= 15 -> (1, 6, 10, 15) ∈ edges /\ cover <> ∅ /\ f_sf < Z.of_nat (length V)).
Proof. apply (compute_f_sf_first_edge 15). lia. Defined.

(** * Further properties of the fixing-opportunity search *)

Lemma scale_loop_Ret (fuel : nat) (n k s r : Z) :
  scale_loop fuel n k s = Ret r ->
  s <= r /\ (forall t, s <= t < r -> k * t * t <= n) /\ n < k * r * r.
Proof.
  revert s. induction fuel as [|fuel IH]; intros s; simpl; [done|].
  destruct (Z.leb_spec (k * s * s) n) as [Hle|Hgt].
  - intros (Hsr & Hall & Hr)%IH. split; [lia|]. split; [|done].
    intros t Ht. destruct (Z.eq_dec t s) as [->|Hne]; [done|]. apply Hall. lia.
  - intros [= <-]. split; [lia|]. split; [|done]. intros t Ht. lia.
Qed.

(** [max_scale] returns the number of scales [1, 2, ...] tried with
    success before the first failure. *)
Lemma max_scale_Ret (n k ms : Z) :
  max_scale n k = Ret ms ->
  0 <= ms /\ (forall t, 1 <= t <= ms -> k * t * t <= n) /\ n < k * (ms + 1) * (ms + 1).
Proof.
  unfold max_scale. destruct (scale_loop _ n k 1) as [r| |] eqn:Hloop; [|done..].
  simpl. intros [= <-]. apply scale_loop_Ret in Hloop as (Hr & Hall & Hgt).
  split; [lia|]. split; [intros t Ht; apply Hall; lia|].
  by replace (r - 1 + 1) with r by lia.
Qed.

Lemma max_scale_maximal (n k ms s : Z) :
  0 < k -> max_scale n k = Ret ms -> 1 <= s -> k * s * s <= n -> s <= ms.
Proof.
  intros Hk (Hms & _ & Hgt)%max_scale_Ret Hs Hle.
  destruct (Z.le_gt_cases s ms) as [|Hbig]; [done|]. exfalso.
  assert ((ms + 1) * (ms + 1) <= s * s) by nia. nia.
Qed.

Lemma map_outcome_inv {A B : Type} (f : A -> outcome B) (l : list A) (ys : list B) :
  map_outcome f l = Ret ys -> Forall2 (fun x y => f x = Ret y) l ys.
Proof.
  revert ys. induction l as [|x l IH]; intros ys; simpl.
  - intros [= <-]. constructor.
  - destruct (f x) as [y| |] eqn:Hfx; [|done..]. simpl.
    destruct (map_outcome f l) as [ys'| |]; [|done..]. simpl.
    intros [= <-]. constructor; [done|]. by apply IH.
Qed.

Lemma elem_of_cart_product {A : Type} (ls : list (list A)) (c : list A) :
  c ∈ cart_product ls <-> Forall2 (fun x l => x ∈ l) c ls.
Proof.
  revert c. induction ls as [|l ls IH]; intros c; simpl.
  - rewrite list_elem_of_singleton. split; [intros ->; constructor|by intros ->%Forall2_nil_inv_r].
  - rewrite list_elem_of_bind. split.
    + intros (x & (c' & -> & Hc')%list_elem_of_fmap & Hx). constructor; [done|]. by apply IH.
    + intros (x & c' & Hx & Hc' & ->)%Forall2_cons_inv_r.
      exists x. split; [|done]. apply list_elem_of_fmap. exists c'. split; [done|]. by apply IH.
Qed.

Lemma all_ones_spec (scales : list Z) :
  forallb (fun s => s =? 1) scales = false <-> Exists (fun s => s <> 1) scales.
Proof.
  induction scales as [|s scales IH]; simpl.
  - split; [done|]. by intros ?%Exists_nil.
  - rewrite Exists_cons, andb_false_iff, IH.
    destruct (Z.eqb_spec s 1); split; intros [?|?]; auto; done.
Qed.

Lemma lookup_prefix4 (l : list Z) (a0 a1 a2 a3 : Z) :
  l !! 0%nat = Some a0 -> l !! 1%nat = Some a1 ->
  l !! 2%nat = Some a2 -> l !! 3%nat = Some a3 ->
  exists rest, l = a0 :: a1 :: a2 :: a3 :: rest.
Proof.
  destruct l as [|b0 [|b1 [|b2 [|b3 rest]]]]; simpl; try done.
  intros [= ->] [= ->] [= ->] [= ->]. by exists rest.
Qed.

Lemma try_scales_Some (kernels scales A : list Z) :
  try_scales kernels scales = Ret (Some A) <-> fix_found kernels scales A.
Proof.
  unfold try_scales, fix_found.
  destruct (forallb (fun s => s =? 1) scales) eqn:Hones.
  { split; [done|]. intros (_ & Hex%all_ones_spec & _). congruence. }
  apply all_ones_spec in Hones.
  set (A' := zip_with (fun k s => k * s * s) kernels scales).
  case_bool_decide as Hsize; simpl.
  2:{ split; [done|]. intros (-> & _ & Hnd & _). by rewrite size_list_to_set in Hsize. }
  apply size_list_to_set_NoDup in Hsize.
  destruct (sorted A' !! 0%nat) as [a0|] eqn:H0;
    [|split; [done|]; intros (-> & _ & _ & b0 & b1 & b2 & b3 & rest & Hs & _);
      fold A' in Hs; by rewrite Hs in H0].
  destruct (sorted A' !! 1%nat) as [a1|] eqn:H1;
    [|split; [done|]; intros (-> & _ & _ & b0 & b1 & b2 & b3 & rest & Hs & _);
      fold A' in Hs; by rewrite Hs in H1].
  destruct (sorted A' !! 2%nat) as [a2|] eqn:H2;
    [|split; [done|]; intros (-> & _ & _ & b0 & b1 & b2 & b3 & rest & Hs & _);
      fold A' in Hs; by rewrite Hs in H2].
  destruct (sorted A' !! 3%nat) as [a3|] eqn:H3;
    [|split; [done|]; intros (-> & _ & _ & b0 & b1 & b2 & b3 & rest & Hs & _);
      fold A' in Hs; by rewrite Hs in H3].
  destruct (lookup_prefix4 _ _ _ _ _ H0 H1 H2 H3) as [rest Hs].
  destruct (is_square (a0 * a1 * a2 * a3)) eqn:Hsq.
  - destruct (Z.eqb_spec (a0 * a3) (a1 * a2)) as [Hcross|Hcross].
    + split.
      * intros [= <-]. split; [done|]. split; [done|]. split; [done|].
        exists a0, a1, a2, a3, rest. split; [done|]. split; [by apply is_square_spec|done].
      * intros (-> & _). done.
    + split; [done|]. intros (-> & _ & _ & b0 & b1 & b2 & b3 & rest' & Hs' & _ & Hc).
      fold A' in Hs'. rewrite Hs in Hs'. injection Hs' as <- <- <- <- _. done.
  - split; [done|]. intros (-> & _ & _ & b0 & b1 & b2 & b3 & rest' & Hs' & Hp & _).
    fold A' in Hs'. rewrite Hs in Hs'. injection Hs' as <- <- <- <- _.
    apply is_square_spec in Hp. congruence.
Qed.

Lemma search_scales_Ret (kernels : list Z) (cands : list (list Z)) (b : bool)
  (r : option (list Z)) :
  search_scales kernels cands = Ret (b, r) ->
  (b = false /\ r = None
   /\ forall scales, scales ∈ cands -> try_scales kernels scales = Ret None)
  \/ (exists A scales, b = true /\ r = Some A /\ scales ∈ cands
                       /\ try_scales kernels scales = Ret (Some A)).
Proof.
  induction cands as [|scales cands IH]; simpl.
  - intros [= <- <-]. left. split; [done|]. split; [done|]. by intros s ?%elem_of_nil.
  - destruct (try_scales kernels scales) as [[A|]| |] eqn:Htry; simpl; [| |done..].
    + intros [= <- <-]. right. exists A, scales. split; [done|]. split; [done|].
      split; [apply list_elem_of_here|done].
    + intros [(-> & -> & Hall)|(A & s & -> & -> & Hin & Hs)]%IH.
      * left. split; [done|]. split; [done|].
        intros s [->|Hs]%elem_of_cons; [done|by apply Hall].
      * right. exists A, s. split; [done|]. split; [done|].
        split; [by apply list_elem_of_further|done].
Qed.

Lemma elem_of_range (lo hi x : Z) : x ∈ range lo hi <-> lo <= x < hi.
Proof. unfold range. rewrite elem_of_seqZ. lia. Qed.

(** The candidates of the search are the scale tuples within the bound. *)
Lemma candidates_spec (n : Z) (kernels mss scales : list Z) :
  Forall2 (fun k ms => max_scale n k = Ret ms) kernels mss ->
  scales ∈ cart_product ((fun ms => range 1 (ms + 1)) <$> mss) ->
  Forall2 (fun k s => 1 <= s /\ k * s * s <= n) kernels scales.
Proof.
  intros Hms. rewrite elem_of_cart_product. revert scales.
  induction Hms as [|k ms kernels mss Hk Hms IH]; intros scales.
  - rewrite fmap_nil. intros ->%Forall2_nil_inv_r. constructor.
  - rewrite fmap_cons. intros (s & scales' & Hs & Hrest & ->)%Forall2_cons_inv_r.
    constructor; [|by apply IH].
    apply elem_of_range in Hs. apply max_scale_Ret in Hk as (_ & Hall & _).
    split; [lia|]. apply Hall. lia.
Qed.

Lemma candidates_complete (n : Z) (kernels mss scales : list Z) :
  Forall (fun k => 0 < k) kernels ->
  Forall2 (fun k ms => max_scale n k = Ret ms) kernels mss ->
  Forall2 (fun k s => 1 <= s /\ k * s * s <= n) kernels scales ->
  scales ∈ cart_product ((fun ms => range 1 (ms + 1)) <$> mss).
Proof.
  intros Hpos Hms. rewrite elem_of_cart_product. revert scales.
  induction Hms as [|k ms kernels mss Hk Hms IH]; intros scales.
  - intros ->%Forall2_nil_inv_l. constructor.
  - apply Forall_cons in Hpos as [Hk0 Hpos].
    intros (s & scales' & [Hs1 Hle] & Hrest & ->)%Forall2_cons_inv_l.
    rewrite fmap_cons. constructor; [|by apply IH].
    apply elem_of_range. pose proof (max_scale_maximal n k ms s Hk0 Hk Hs1 Hle). lia.
Qed.

Lemma check_fixing_opportunity_Ret (n : Z) (K : list Z) (b : bool) (r : option (list Z)) :
  check_fixing_opportunity n K = Ret (b, r) ->
  exists mss,
    Forall2 (fun k ms => max_scale n k = Ret ms) (sorted K) mss
    /\ search_scales (sorted K) (cart_product ((fun ms => range 1 (ms + 1)) <$> mss))
       = Ret (b, r).
Proof.
  unfold check_fixing_opportunity.
  destruct (map_outcome (max_scale n) (sorted K)) as [mss| |] eqn:Hmap; [|done..].
  simpl. intros Hsearch. exists mss. split; [by apply map_outcome_inv|done].
Qed.

(** X16: a reported fix is genuine.  When the search returns [(b, r)] then
    either [b] is false and [r] is [None], or [b] is true and [r] is a
    list [A] obtained from the sorted kernels by scales [s >= 1] with
    [k * s * s <= n], not all equal to 1, whose values are pairwise
    distinct and whose four least values have a square product and equal
    cross products. *)
Theorem check_fixing_opportunity_sound (n : Z) (K : list Z) (b : bool)
  (r : option (list Z)) :
  check_fixing_opportunity n K = Ret (b, r) ->
  (b = false /\ r = None)
  \/ (b = true
      /\ exists A scales,
           r = Some A
           /\ Forall2 (fun k s => 1 <= s /\ k * s * s <= n) (sorted K) scales
           /\ fix_found (sorted K) scales A).
Proof.
  intros (mss & Hms & Hsearch)%check_fixing_opportunity_Ret.
  apply search_scales_Ret in Hsearch as [(-> & -> & _)|(A & scales & -> & -> & Hin & Htry)];
    [by left|right].
  split; [done|]. exists A, scales. split; [done|].
  split; [by apply (candidates_spec n _ mss)|by apply try_scales_Some].
Qed.

Lemma check_fixing_opportunity_sound_witness :
  (true = false /\ Some [3; 5; 126; 210] = None)
  \/ (true = true
      /\ exists A scales,
           Some [3; 5; 126; 210] = Some A
           /\ Forall2 (fun k s => 1 <= s /\ k * s * s <= 210) (sorted [3; 5; 14; 210]) scales
           /\ fix_found (sorted [3; 5; 14; 210]) scales A).
Proof.
  apply (check_fixing_opportunity_sound 210 [3; 5; 14; 210]). vm_compute. reflexivity.
Defined.

(** X17: a reported failure is genuine.  When all kernels are positive and
    the search returns [(False, None)], no tuple of scales [s >= 1] with
    [k * s * s <= n] is a fix. *)
Theorem check_fixing_opportunity_complete (n : Z) (K scales A : list Z) :
  Forall (fun k => 0 < k) K ->
  check_fixing_opportunity n K = Ret (false, None) ->
  Forall2 (fun k s => 1 <= s /\ k * s * s <= n) (sorted K) scales ->
  ~ fix_found (sorted K) scales A.
Proof.
  intros Hpos (mss & Hms & Hsearch)%check_fixing_opportunity_Ret Hscales Hfix.
  apply search_scales_Ret in Hsearch as [(_ & _ & Hall)|(? & ? & [=] & _)].
  assert (Hin : scales ∈ cart_product ((fun ms => range 1 (ms + 1)) <$> mss)).
  { apply (candidates_complete n (sorted K)); [|done..].
    apply Forall_forall. intros k Hk%elem_of_sorted_by.
    rewrite Forall_forall in Hpos. by apply Hpos. }
  apply try_scales_Some in Hfix. rewrite (Hall _ Hin) in Hfix. done.
Qed.

Lemma check_fixing_opportunity_complete_witness :
  ~ fix_found (sorted [1; 2; 3; 5]) [2; 1; 1; 1] [4; 2; 3; 5].
Proof.
  apply (check_fixing_opportunity_complete 10 [1; 2; 3; 5]).
  - repeat constructor.
  - vm_compute. reflexivity.
  - change (sorted [1; 2; 3; 5]) with [1; 2; 3; 5].
    repeat (constructor; [lia|]). constructor.
Defined.

Lemma scaled_pair_not_square (k1 k2 s t : Z) :
  1 <= k1 -> 1 <= k2 -> square_free k1 -> square_free k2 -> k1 <> k2 ->
  1 <= s -> 1 <= t ->
  is_square (k1 * s * s * (k1 * s * s) * (k1 * s * s) * (k2 * t * t)) = false
  /\ is_square (k1 * s * s * (k2 * t * t) * (k2 * t * t) * (k2 * t * t)) = false.
Proof.
  intros Hk1 Hk2 Hs1 Hs2 Hne Hs Ht. split.
  - match goal with |- is_square ?e = false => destruct (is_square e) eqn:Hsq end; [|done].
    exfalso. apply is_square_spec in Hsq as [r Hr]. apply Hne.
    apply (square_free_part_unique k1 k2 (Z.abs r) (k1 * k2 * s * s * s * t));
      try done; [nia|nia|].
    rewrite <- Z.abs_mul, (Z.abs_eq (r * r)) by nia. rewrite <- Hr. ring.
  - match goal with |- is_square ?e = false => destruct (is_square e) eqn:Hsq end; [|done].
    exfalso. apply is_square_spec in Hsq as [r Hr]. apply Hne. symmetry.
    apply (square_free_part_unique k2 k1 (Z.abs r) (k1 * k2 * s * t * t * t));
      try done; [nia|nia|].
    rewrite <- Z.abs_mul, (Z.abs_eq (r * r)) by nia. rewrite <- Hr. ring.
Qed.

Lemma sublist_length_eq {A : Type} (l1 l2 : list A) :
  l1 `sublist_of` l2 -> length l1 = length l2 -> l1 = l2.
Proof.
  induction 1 as [|x l1 l2 Hsub IH|x l1 l2 Hsub IH]; simpl; intros Hlen.
  - done.
  - f_equal. apply IH. lia.
  - apply sublist_length in Hsub. lia.
Qed.

Lemma check_fixing_opportunity_fix (n : Z) (K A : list Z) :
  check_fixing_opportunity n K = Ret (true, Some A) ->
  exists scales,
    Forall2 (fun k s => 1 <= s /\ k * s * s <= n) (sorted K) scales
    /\ fix_found (sorted K) scales A.
Proof.
  intros (mss & Hms & Hsearch)%check_fixing_opportunity_Ret.
  apply search_scales_Ret in Hsearch as [([=] & _)|(A' & scales & _ & [= <-] & Hin & Htry)].
  exists scales. split; [by apply (candidates_spec n _ mss)|by apply try_scales_Some].
Qed.

Lemma reported_fix_admissible (n : Z) (K A : list Z) :
  NoDup K -> length K = 4%nat ->
  Forall (fun k => 1 <= k /\ square_free k) K ->
  check_fixing_opportunity n K = Ret (true, Some A) ->
  check_admissible A = true.
Proof.
  intros HndK HlenK HK (scales & Hscales & -> & _ & HndA & Hsorted)%check_fixing_opportunity_fix.
  destruct Hsorted as (a0 & a1 & a2 & a3 & rest & Hs & _ & Hcross).
  set (A := zip_with (fun k s => k * s * s) (sorted K) scales) in *.
  assert (Hlenk : length (sorted K) = 4%nat) by (unfold sorted; by rewrite sorted_by_length).
  assert (HlenA : length A = 4%nat).
  { unfold A. rewrite length_zip_with, <- (Forall2_length _ _ _ Hscales). lia. }
  assert (rest = []) as ->.
  { assert (Hl : length (sorted A) = 4%nat) by (unfold sorted; by rewrite sorted_by_length).
    rewrite Hs in Hl. simpl in Hl. destruct rest; [done|simpl in Hl; lia]. }
  assert (Hndk : NoDup (sorted K)) by (unfold sorted; by rewrite sorted_by_perm).
  apply (check_admissible_clauses A HndA). split.
  - intros a b c d Ha Hb Hc Hd Hab Hbc Hcd _.
    assert (Heq : [a; b; c; d] = sorted A).
    { apply sublist_length_eq; [|by rewrite Hs].
      apply (sublist_of_sorted _ _ (sorted_strict A HndA)). split.
      - repeat constructor; lia.
      - intros x Hx. apply elem_of_sorted_by.
        repeat (apply elem_of_cons in Hx as [->|Hx]; [done|]). by apply elem_of_nil in Hx. }
    rewrite Hs in Heq. by injection Heq as -> -> -> ->.
  - intros x y [i Hi]%list_elem_of_lookup [j Hj]%list_elem_of_lookup Hxy.
    apply lookup_zip_with_Some in Hi as (k1 & s & -> & Hk1 & Hs1).
    apply lookup_zip_with_Some in Hj as (k2 & t & -> & Hk2 & Hs2).
    assert (Hne : k1 <> k2).
    { intros <-. assert (i = j) as -> by (by apply (NoDup_lookup (sorted K) i j k1)).
      assert (s = t) by congruence. subst t. lia. }
    assert (Hprop : forall i k s, sorted K !! i = Some k -> scales !! i = Some s ->
                                  1 <= k /\ square_free k /\ 1 <= s).
    { intros i' k' s' Hk' Hs'.
      destruct (Forall2_lookup_lr _ _ _ _ _ _ Hscales Hk' Hs') as [? _].
      rewrite Forall_forall in HK.
      destruct (HK k') as [? ?]; [|done].
      apply (elem_of_sorted_by Z.leb). by apply list_elem_of_lookup_2 in Hk'. }
    destruct (Hprop _ _ _ Hk1 Hs1) as (? & ? & ?), (Hprop _ _ _ Hk2 Hs2) as (? & ? & ?).
    destruct (scaled_pair_not_square k1 k2 s t) as [-> ->]; done.
Qed.

(** X18: the round trip holds for every kernel set of four distinct
    positive square-free integers (such as a hyperedge): whenever the search
    reports a fix [A], [check_admissible(A)] is [True]. *)
Theorem check_fixing_opportunity_admissible (n : Z) (K A : list Z) :
  NoDup K -> length K = 4%nat ->
  Forall (fun k => 1 <= k /\ square_free k) K ->
  check_fixing_opportunity n K = Ret (true, Some A) ->
  check_admissible A = true.
Proof. apply reported_fix_admissible. Qed.

Lemma check_fixing_opportunity_admissible_witness :
  check_admissible [4; 6; 10; 15] = true.
Proof.
  apply (check_fixing_opportunity_admissible 40 [1; 6; 10; 15]).
  - apply (NoDup_StronglySorted_lt [1; 6; 10; 15]). repeat constructor; lia.
  - reflexivity.
  - repeat constructor; try lia.
    + apply square_free_1.
    + apply square_free_6.
    + apply square_free_10.
    + apply square_free_15.
  - vm_compute. reflexivity.
Defined.

Lemma try_scales_long (kernels scales : list Z) :
  length scales = length kernels -> (4 <= length kernels)%nat ->
  exists r, try_scales kernels scales = Ret r.
Proof.
  intros Hlen H4. unfold try_scales.
  destruct (forallb _ scales); [eauto|].
  set (A := zip_with (fun k s => k * s * s) kernels scales).
  destruct (negb _); [eauto|].
  assert (HlenA : length (sorted A) = length kernels).
  { unfold sorted, A. rewrite sorted_by_length, length_zip_with. lia. }
  destruct (sorted A) as [|a0 [|a1 [|a2 [|a3 rest]]]]; simpl in HlenA; try lia.
  simpl. destruct (is_square _); [|eauto]. destruct (_ =? _); eauto.
Qed.

Lemma try_scales_short (kernels scales : list Z) :
  length scales = length kernels -> (length kernels < 4)%nat ->
  try_scales kernels scales = Ret None \/ try_scales kernels scales = Raise IndexError.
Proof.
  intros Hlen H4. unfold try_scales.
  destruct (forallb _ scales); [by left|].
  set (A := zip_with (fun k s => k * s * s) kernels scales).
  destruct (negb _); [by left|].
  assert (HlenA : length (sorted A) = length kernels).
  { unfold sorted, A. rewrite sorted_by_length, length_zip_with. lia. }
  destruct (sorted A) as [|a0 [|a1 [|a2 [|a3 rest]]]]; simpl in HlenA; try lia;
    by right.
Qed.

Lemma max_scales_Ret (n : Z) (kernels : list Z) :
  Forall (fun k => 0 < k) kernels ->
  exists mss, map_outcome (max_scale n) kernels = Ret mss
              /\ Forall2 (fun k ms => max_scale n k = Ret ms) kernels mss.
Proof.
  intros Hpos. apply map_outcome_Ret. eapply Forall_impl; [exact Hpos|].
  intros k Hk. apply max_scale_terminates. simpl in Hk. lia.
Qed.

Lemma candidates_length (mss scales : list Z) :
  scales ∈ cart_product ((fun ms => range 1 (ms + 1)) <$> mss) ->
  length scales = length mss.
Proof.
  intros Hin%elem_of_cart_product. apply Forall2_length in Hin.
  by rewrite length_fmap in Hin.
Qed.

Lemma search_returns (n : Z) (K : list Z) :
  Forall (fun k => 0 < k) K -> (4 <= length K)%nat ->
  exists b r, check_fixing_opportunity n K = Ret (b, r).
Proof.
  intros Hpos H4. unfold check_fixing_opportunity.
  assert (Hpos' : Forall (fun k => 0 < k) (sorted K)).
  { apply Forall_forall. intros k Hk%elem_of_sorted_by.
    rewrite Forall_forall in Hpos. by apply Hpos. }
  destruct (max_scales_Ret n _ Hpos') as (mss & -> & Hms). simpl.
  assert (Hlen : length mss = length (sorted K)) by (symmetry; by apply (Forall2_length _ _ _ Hms)).
  assert (Hall : forall scales,
             scales ∈ cart_product ((fun ms => range 1 (ms + 1)) <$> mss) ->
             exists r, try_scales (sorted K) scales = Ret r).
  { intros scales Hin%candidates_length. apply try_scales_long; [lia|].
    unfold sorted. by rewrite sorted_by_length. }
  induction (cart_product _) as [|scales cands IH]; simpl; [eauto|].
  destruct (Hall scales (list_elem_of_here _ _)) as [[A|] ->]; simpl; [eauto|].
  apply IH. intros s Hs. by apply Hall, list_elem_of_further.
Qed.

(** X19: on at least four kernels, all positive, the search returns a
    value: every scale loop ends and no index is out of range. *)
Theorem check_fixing_opportunity_returns (n : Z) (K : list Z) :
  Forall (fun k => 0 < k) K -> (4 <= length K)%nat ->
  exists b r, check_fixing_opportunity n K = Ret (b, r).
Proof. apply search_returns. Qed.

Lemma check_fixing_opportunity_returns_witness :
  exists b r, check_fixing_opportunity 100 [1; 6; 10; 15; 21] = Ret (b, r).
Proof.
  apply (check_fixing_opportunity_returns 100 [1; 6; 10; 15; 21]).
  - repeat constructor.
  - simpl. lia.
Defined.

(** X20: fewer than four kernels never give a fix: with positive kernels
    the search returns [(False, None)] or raises [IndexError] at the first
    candidate it has to index. *)
Theorem check_fixing_opportunity_short (n : Z) (K : list Z) :
  Forall (fun k => 0 < k) K -> (length K < 4)%nat ->
  check_fixing_opportunity n K = Ret (false, None)
  \/ check_fixing_opportunity n K = Raise IndexError.
Proof.
  intros Hpos H4. unfold check_fixing_opportunity.
  assert (Hpos' : Forall (fun k => 0 < k) (sorted K)).
  { apply Forall_forall. intros k Hk%elem_of_sorted_by.
    rewrite Forall_forall in Hpos. by apply Hpos. }
  destruct (max_scales_Ret n _ Hpos') as (mss & -> & Hms). simpl.
  assert (Hlen : length mss = length (sorted K)) by (symmetry; by apply (Forall2_length _ _ _ Hms)).
  assert (Hall : forall scales,
             scales ∈ cart_product ((fun ms => range 1 (ms + 1)) <$> mss) ->
             try_scales (sorted K) scales = Ret None
             \/ try_scales (sorted K) scales = Raise IndexError).
  { intros scales Hin%candidates_length. apply try_scales_short; [lia|].
    unfold sorted. by rewrite sorted_by_length. }
  induction (cart_product _) as [|scales cands IH]; simpl; [by left|].
  destruct (Hall scales (list_elem_of_here _ _)) as [-> | ->]; simpl; [|by right].
  apply IH. intros s Hs. by apply Hall, list_elem_of_further.
Qed.

Lemma check_fixing_opportunity_short_witness :
  check_fixing_opportunity 4 [1; 2] = Ret (false, None)
  \/ check_fixing_opportunity 4 [1; 2] = Raise IndexError.
Proof.
  apply (check_fixing_opportunity_short 4 [1; 2]).
  - repeat constructor.
  - simpl. lia.
Defined.

Lemma map_outcome_OutOfFuel {A B : Type} (f : A -> outcome B) (l : list A) (x : A) :
  (forall y e, f y <> Raise e) -> x ∈ l -> f x = OutOfFuel ->
  map_outcome f l = OutOfFuel.
Proof.
  intros Hnoraise Hin Hx. induction l as [|y l IH]; [by apply elem_of_nil in Hin|].
  simpl. apply elem_of_cons in Hin as [<-|Hin].
  - by rewrite Hx.
  - destruct (f y) as [b|e|] eqn:Hy; simpl; [|by destruct (Hnoraise y e)|done].
    by rewrite IH.
Qed.

Lemma scale_loop_no_raise (fuel : nat) (n k s : Z) (e : exn) :
  scale_loop fuel n k s <> Raise e.
Proof.
  revert s. induction fuel as [|fuel IH]; intros s; simpl; [done|].
  destruct (_ <=? _); [apply IH|done].
Qed.

(** X21: a kernel [k <= 0] with [k <= n] makes the search hang: the loop
    [while k * s * s <= n] never exits, whatever fuel it is given, and the
    call does not return. *)
Theorem check_fixing_opportunity_hangs (n k : Z) (K : list Z) :
  k ∈ K -> k <= 0 -> k <= n ->
  (forall fuel, scale_loop fuel n k 1 = OutOfFuel)
  /\ check_fixing_opportunity n K = OutOfFuel.
Proof.
  intros Hk Hk0 Hkn. split; [intros fuel; by apply scale_loop_diverges|].
  unfold check_fixing_opportunity.
  rewrite (map_outcome_OutOfFuel (max_scale n) (sorted K) k); [done| | |].
  - intros y e. unfold max_scale.
    destruct (scale_loop _ n y 1) as [r|e'|] eqn:Hloop; simpl; [done| |done].
    by destruct (scale_loop_no_raise _ _ _ _ _ Hloop).
  - by apply elem_of_sorted_by.
  - by apply max_scale_OutOfFuel.
Qed.

Lemma check_fixing_opportunity_hangs_witness :
  (forall fuel, scale_loop fuel 10 0 1 = OutOfFuel)
  /\ check_fixing_opportunity 10 [0; 3; 5; 7] = OutOfFuel.
Proof.
  apply (check_fixing_opportunity_hangs 10 0 [0; 3; 5; 7]); [|lia|lia].
  apply list_elem_of_here.
Defined.

(** * The fixability scan of [main] *)

Lemma edge_set_ok (n : Z) (e : edge) :
  violating n e ->
  NoDup (edge_set e) /\ length (edge_set e) = 4%nat
  /\ Forall (fun k => 1 <= k /\ square_free k) (edge_set e).
Proof.
  destruct e as [[[a b] c] d]. intros (Hab & Hbc & Hcd & Hall & _).
  assert (Hnd : NoDup [a; b; c; d]).
  { apply NoDup_StronglySorted_lt. repeat constructor; lia. }
  assert (Hperm : edge_set (a, b, c, d) ≡ₚ [a; b; c; d]).
  { unfold edge_set. change (edge_vertices (a, b, c, d)) with [a; b; c; d].
    by apply elements_list_to_set. }
  split; [by rewrite Hperm|]. split; [by rewrite Hperm|].
  rewrite Hperm. eapply Forall_impl; [exact Hall|]. intros v [[? _] ?]. done.
Qed.

Lemma fixable_scan_spec (n : Z) (edges : list edge) :
  Forall (violating n) edges ->
  exists b, fixable_scan n edges = Ret b
    /\ (b = true ->
        exists e A, e ∈ edges
          /\ check_fixing_opportunity n (edge_set e) = Ret (true, Some A)
          /\ check_admissible A = true)
    /\ (b = false ->
        forall e, e ∈ edges -> check_fixing_opportunity n (edge_set e) = Ret (false, None)).
Proof.
  induction 1 as [|e edges He Hrest IH]; simpl.
  - exists false. split; [done|]. split; [done|]. by intros _ e ?%elem_of_nil.
  - destruct (edge_set_ok n e He) as (Hnd & Hlen & Hall).
    destruct (search_returns n (edge_set e)) as (b & r & Hret).
    { eapply Forall_impl; [exact Hall|]. intros k [? _]. simpl. lia. }
    { lia. }
    rewrite Hret. simpl.
    destruct b.
    + exists true. split; [done|]. split; [|done]. intros _.
      destruct r as [A|].
      * exists e, A. split; [apply list_elem_of_here|]. split; [done|].
        by apply (reported_fix_admissible n (edge_set e)).
      * exfalso. apply check_fixing_opportunity_Ret in Hret as (mss & _ & Hs).
        apply search_scales_Ret in Hs as [([=] & _)|(? & ? & _ & [=] & _)].
    + destruct IH as (b & -> & Htrue & Hfalse). exists b. split; [done|]. split.
      * intros Hb. destruct (Htrue Hb) as (e' & A & Hin & Hfix & Hadm).
        exists e', A. split; [by apply list_elem_of_further|done].
      * intros Hb e' [->|Hin]%elem_of_cons; [|by apply Hfalse].
        apply check_fixing_opportunity_Ret in Hret as Hret'.
        destruct Hret' as (mss & _ & Hs).
        apply search_scales_Ret in Hs as [(_ & -> & _)|(? & ? & [=] & _)]. done.
Qed.

(** X22: the fixability scan that [main] runs on the first 100 edges of
    [compute_f_sf(n)] returns a flag for every [n >= 1] (no kernel loop
    hangs, no index is out of range).  The flag is true only if some
    scanned edge has a fix that [check_admissible] accepts, and false only
    if the search fails on every scanned edge. *)
Theorem main_fixable_returns (n : Z) :
  1 <= n ->
  exists (f_sf : Z) (edges : list edge) (cover : gset Z) (b : bool),
    compute_f_sf n = Ret (f_sf, edges, cover)
    /\ fixable n edges = Ret b
    /\ (b = true ->
        exists e A, e ∈ take 100 edges
          /\ check_fixing_opportunity n (edge_set e) = Ret (true, Some A)
          /\ check_admissible A = true)
    /\ (b = false ->
        forall e, e ∈ take 100 edges ->
          check_fixing_opportunity n (edge_set e) = Ret (false, None)).
Proof.
  intros Hn.
  destruct (compute_f_sf_spec n) as (V & groups & cover & [HV Hg Hok Hval Hvert Hcov Hmin]);
    [lia|].
  destruct (fixable_scan_spec n (take 100 (build_edges groups))) as (b & Hb & Hprops).
  { apply Forall_forall. intros e (i & He%list_elem_of_lookup_2 & _)%elem_of_take.
    by apply (build_edges_violating n V groups). }
  by eexists _, _, cover, b.
Qed.

Lemma main_fixable_returns_witness :
  exists (f_sf : Z) (edges : list edge) (cover : gset Z) (b : bool),
    compute_f_sf 30 = Ret (f_sf, edges, cover)
    /\ fixable 30 edges = Ret b
    /\ (b = true ->
        exists e A, e ∈ take 100 edges
          /\ check_fixing_opportunity 30 (edge_set e) = Ret (true, Some A)
          /\ check_admissible A = true)
    /\ (b = false ->
        forall e, e ∈ take 100 edges ->
          check_fixing_opportunity 30 (edge_set e) = Ret (false, None)).
Proof. apply (main_fixable_returns 30). lia. Defined.

(** * The degree table *)

Lemma counter_step_lookup (deg : gmap Z Z) (w v : Z) :
  deg_of (<[w := deg_of deg w + 1]> deg) v
  = deg_of deg v + occurrences v [w].
Proof.
  unfold deg_of, occurrences. destruct (decide (w = v)) as [->|Hne].
  - rewrite lookup_insert_eq, filter_cons_True by done. simpl. lia.
  - rewrite lookup_insert_ne, filter_cons_False by done. simpl. lia.
Qed.

Lemma occurrences_app (v : Z) (l1 l2 : list Z) :
  occurrences v (l1 ++ l2) = occurrences v l1 + occurrences v l2.
Proof. unfold occurrences. rewrite filter_app, length_app. lia. Qed.

Lemma counter_fold_lookup (vs : list Z) (deg : gmap Z Z) (v : Z) :
  deg_of (foldl (fun d w => <[w := deg_of d w + 1]> d) deg vs) v
  = deg_of deg v + occurrences v vs.
Proof.
  revert deg. induction vs as [|w vs IH]; intros deg; simpl.
  - unfold occurrences. simpl. lia.
  - rewrite IH, counter_step_lookup.
    change (w :: vs) with ([w] ++ vs). rewrite occurrences_app. lia.
Qed.

Lemma degree_fold_lookup (edges : list edge) (deg : gmap Z Z) (v : Z) :
  deg_of (foldl counter_update deg edges) v
  = deg_of deg v + occurrences v (edges ≫= edge_vertices).
Proof.
  revert deg. induction edges as [|e edges IH]; intros deg.
  - unfold occurrences. simpl. lia.
  - cbn [foldl]. rewrite IH, bind_cons, occurrences_app. unfold counter_update.
    rewrite counter_fold_lookup. lia.
Qed.

(** X23: the degree table counts: [deg[v]] is the number of times [v]
    occurs in the edge tuples, and 0 for a vertex of no edge. *)
Theorem degree_table_counts (edges : list edge) (v : Z) :
  deg_of (degree_table edges) v = occurrences v (edges ≫= edge_vertices).
Proof.
  unfold degree_table. rewrite degree_fold_lookup. unfold deg_of at 1.
  by rewrite lookup_empty.
Qed.

(** * How often a hyperedge is listed *)

Lemma count_edge_NoDup (e : edge) (l : list edge) :
  NoDup l -> count_edge e l = if decide (e ∈ l) then 1%nat else 0%nat.
Proof.
  unfold count_edge. induction 1 as [|x l Hx Hl IH].
  - destruct (decide (e ∈ [])) as [?%elem_of_nil|]; done.
  - rewrite filter_cons. destruct (decide (x = e)) as [->|Hne]; simpl; rewrite IH.
    + destruct (decide (e ∈ l)); [done|].
      destruct (decide (e ∈ e :: l)) as [|Hnin]; [done|].
      destruct Hnin. apply list_elem_of_here.
    + destruct (decide (e ∈ l)) as [Hin|Hnin].
      * destruct (decide (e ∈ x :: l)) as [|Hnin]; [done|].
        destruct Hnin. by apply list_elem_of_further.
      * destruct (decide (e ∈ x :: l)) as [[?|?]%elem_of_cons|]; [congruence|done|done].
Qed.

Lemma count_edge_bind {A : Type} (f : A -> list edge) (e : edge) (l : list A) :
  (forall g, g ∈ l -> NoDup (f g)) ->
  count_edge e (l ≫= f) = length (filter (fun g => e ∈ f g) l).
Proof.
  induction l as [|g l IH]; intros Hnd; [done|].
  rewrite bind_cons. unfold count_edge in *. rewrite filter_app, length_app, filter_cons.
  rewrite IH by (intros g' Hg'; by apply Hnd, list_elem_of_further).
  pose proof (count_edge_NoDup e (f g) (Hnd g (list_elem_of_here _ _))) as Hc.
  unfold count_edge in Hc. rewrite Hc.
  by destruct (decide (e ∈ f g)).
Qed.

Lemma filter_length_three {A : Type} `{EqDecision A} (P : A -> Prop)
  `{!forall x, Decision (P x)} (l : list A) (x1 x2 x3 : A) :
  NoDup l -> x1 ∈ l -> x2 ∈ l -> x3 ∈ l ->
  x1 <> x2 -> x1 <> x3 -> x2 <> x3 ->
  (forall x, x ∈ l -> P x <-> x = x1 \/ x = x2 \/ x = x3) ->
  length (filter P l) = 3%nat.
Proof.
  intros Hnd H1 H2 H3 H12 H13 H23 HP.
  assert (Hperm : filter P l ≡ₚ [x1; x2; x3]).
  { apply NoDup_Permutation.
    - by apply NoDup_filter.
    - repeat constructor; set_solver.
    - intros x. rewrite list_elem_of_filter. split.
      + intros [Hx Hin]. apply HP in Hx; [|done]. set_solver.
      + intros Hx.
        assert (x = x1 \/ x = x2 \/ x = x3) as Hcases by set_solver.
        assert (x ∈ l) by (destruct Hcases as [->|[->| ->]]; done).
        split; [by apply HP|done]. }
  by rewrite Hperm.
Qed.

Lemma bucket_edges_elem (pairs : list (Z * Z)) (e : edge) :
  e ∈ bucket_edges pairs <->
  exists p1 p2, (p1, p2) ∈ all_pairs pairs /\ edge_of_pairs p1 p2 = Some e.
Proof.
  unfold bucket_edges. split.
  - destruct (length pairs <? 2)%nat; [by intros ?%elem_of_nil|].
    intros ([p1 p2] & Hpp & He)%list_elem_of_omap. by exists p1, p2.
  - intros (p1 & p2 & Hpp & He). pose proof (all_pairs_length _ _ Hpp) as Hlen.
    destruct (Nat.ltb_spec (length pairs) 2); [lia|].
    apply list_elem_of_omap. by exists (p1, p2).
Qed.

Section three_times.
Variables (n : Z) (V : list Z) (groups : list (Z * list (Z * Z))).
Hypothesis HV : sieve_square_free n = Ret V.
Hypothesis Hgroups : build_pair_groups V = Ret groups.
Hypothesis Hok : groups_ok (all_pairs V) groups.
Variables a b c d : Z.
Hypothesis Hviol : violating n (a, b, c, d).

(** The bucket that holds two disjoint pairs of the quadruple. *)
Lemma pairing_bucket (x y z w : Z) :
  [a; b; c; d] ≡ₚ [x; y; z; w] -> x < y -> z < w ->
  exists k pairs,
    (k, pairs) ∈ groups /\ core x y = Ret k
    /\ (a, b, c, d) ∈ bucket_edges pairs.
Proof.
  intros Hperm Hxy Hzw.
  destruct Hviol as (Hab & Hbc & Hcd & Hall & [r Hr] & Hne).
  pose proof (sieve_strictly_sorted n V HV) as Hsorted.
  pose proof (build_pair_groups_full_prefix _ _ Hgroups) as [Hkeys Hfull].
  assert (Hprop : forall v, v ∈ [x; y; z; w] -> 1 <= v /\ square_free v /\ v ∈ V).
  { intros v Hv. rewrite <- Hperm in Hv. rewrite Forall_forall in Hall.
    destruct (Hall v Hv) as [? ?]. split; [lia|]. split; [done|].
    by apply (elem_of_sieve n v V HV). }
  destruct (Hprop x) as (? & ? & ?); [set_solver|].
  destruct (Hprop y) as (? & ? & ?); [set_solver|].
  destruct (Hprop z) as (? & ? & ?); [set_solver|].
  destruct (Hprop w) as (? & ? & ?); [set_solver|].
  destruct (Hfull (x, y)) as (k1 & ps1 & Hk1 & Hg1 & Hp1); [by apply all_pairs_intro|].
  destruct (Hfull (z, w)) as (k2 & ps2 & Hk2 & Hg2 & Hp2); [by apply all_pairs_intro|].
  simpl in Hk1, Hk2.
  assert (k1 = k2) as <-.
  { apply (square_same_core x y z w); try done. exists r. rewrite <- Hr.
    apply list_prod_perm in Hperm. unfold list_prod in Hperm. simpl in Hperm. lia. }
  assert (ps1 = ps2) as <- by (by apply (NoDup_keys_unique groups k1)).
  exists k1, ps1. split; [done|]. split; [done|].
  assert (Hnd : NoDup [x; y; z; w]).
  { rewrite <- Hperm. apply NoDup_StronglySorted_lt. repeat constructor; lia. }
  assert (Hne' : (x, y) <> (z, w)).
  { intros [= -> ->]. apply NoDup_cons in Hnd as [Hnin _]. set_solver. }
  apply bucket_edges_elem.
  destruct (all_pairs_total ps1 (x, y) (z, w)) as [Hpp|Hpp]; try done.
  - exists (x, y), (z, w). split; [done|]. by apply edge_of_pairs_complete.
  - exists (z, w), (x, y). split; [done|]. apply edge_of_pairs_complete; try done.
    rewrite Hperm. simpl.
    change [x; y; z; w] with ([x; y] ++ [z; w]).
    change [z; w; x; y] with ([z; w] ++ [x; y]). apply Permutation_app_comm.
Qed.

(** A bucket that builds the quadruple holds the pair of [a] and another
    of its vertices. *)
Lemma bucket_of_edge (k : Z) (pairs : list (Z * Z)) :
  (k, pairs) ∈ groups -> (a, b, c, d) ∈ bucket_edges pairs ->
  core a b = Ret k \/ core a c = Ret k \/ core a d = Ret k.
Proof.
  intros Hg (p1 & p2 & Hpp & He)%bucket_edges_elem.
  apply edge_of_pairs_spec in He as (Hab & Hbc & Hcd & Hperm & _).
  pose proof (sieve_strictly_sorted n V HV) as Hsorted.
  pose proof (groups_bucket_ok n V groups k pairs HV Hsorted Hok Hg) as [_ Hbucket].
  apply elem_of_all_pairs in Hpp as [Hp1 Hp2].
  destruct (Hbucket p1 Hp1) as (_ & Hlt1 & _ & _ & Hc1).
  destruct (Hbucket p2 Hp2) as (_ & Hlt2 & _ & _ & Hc2).
  destruct p1 as [x y], p2 as [z w]. simpl in *.
  assert (Hmin : forall v, v ∈ [x; y; z; w] -> a <= v).
  { intros v Hv. rewrite <- Hperm in Hv.
    repeat (apply elem_of_cons in Hv as [->|Hv]; [lia|]). by apply elem_of_nil in Hv. }
  assert (Hother : forall v, v ∈ [x; y; z; w] -> a < v -> v = b \/ v = c \/ v = d).
  { intros v Hv Hav. rewrite <- Hperm in Hv.
    repeat (apply elem_of_cons in Hv as [->|Hv]; [lia || auto|]). by apply elem_of_nil in Hv. }
  assert (Ha : a ∈ [x; y; z; w]) by (rewrite <- Hperm; apply list_elem_of_here).
  pose proof (Hmin x ltac:(set_solver)). pose proof (Hmin z ltac:(set_solver)).
  assert (a = x \/ a = z) as [<- | <-].
  { repeat (apply elem_of_cons in Ha as [->|Ha]; [lia || auto|]). by apply elem_of_nil in Ha. }
  - destruct (Hother y) as [->|[->| ->]]; [set_solver|lia|auto..].
  - destruct (Hother w) as [->|[->| ->]]; [set_solver|lia|auto..].
Qed.
End three_times.

(** X24: nothing deduplicates the edges, and every hyperedge is listed
    exactly three times, once for each way of splitting its four vertices
    into two pairs; the count [len(edges)] that [main] prints is three
    times the number of violating quadruples. *)
Theorem compute_f_sf_edges_thrice (n : Z) :
  1 <= n ->
  exists (f_sf : Z) (edges : list edge) (cover : gset Z),
    compute_f_sf n = Ret (f_sf, edges, cover)
    /\ forall e, e ∈ edges -> count_edge e edges = 3%nat.
Proof.
  intros Hn.
  destruct (compute_f_sf_spec n) as (V & groups & cover & [HV Hg Hok Hval Hvert Hcov Hmin]);
    [lia|].
  eexists _, _, cover. split; [done|]. intros [[[a b] c] d] He.
  pose proof (build_edges_violating n V groups _ HV Hok He) as Hviol.
  pose proof (sieve_strictly_sorted n V HV) as Hsorted.
  pose proof (build_pair_groups_full_prefix _ _ Hg) as [Hkeys _].
  destruct Hviol as (Hab & Hbc & Hcd & Hall & Hsq & Hne).
  assert (Hviol : violating n (a, b, c, d)) by done.
  repeat match goal with
         | H : Forall _ (_ :: _) |- _ => apply Forall_cons in H as [[[? ?] ?] ?]
         end.
  destruct (pairing_bucket n V groups HV Hg Hok a b c d Hviol a b c d) as (k1 & ps1 & Hg1 & Hk1 & He1);
    [done|lia|lia|].
  destruct (pairing_bucket n V groups HV Hg Hok a b c d Hviol a c b d) as (k2 & ps2 & Hg2 & Hk2 & He2);
    [apply perm_skip, perm_swap|lia|lia|].
  destruct (pairing_bucket n V groups HV Hg Hok a b c d Hviol a d b c) as (k3 & ps3 & Hg3 & Hk3 & He3);
    [|lia|lia|].
  { apply perm_skip. change [b; c; d] with ([b; c] ++ [d]).
    change [d; b; c] with ([d] ++ [b; c]). apply Permutation_app_comm. }
  assert (Hk12 : k1 <> k2).
  { intros <-. assert (b = c); [|lia]. by apply (core_inj a b c k1). }
  assert (Hk13 : k1 <> k3).
  { intros <-. assert (b = d); [|lia]. by apply (core_inj a b d k1). }
  assert (Hk23 : k2 <> k3).
  { intros <-. assert (c = d); [|lia]. by apply (core_inj a c d k2). }
  unfold build_edges. rewrite count_edge_bind.
  2:{ intros [k pairs] Hin. apply (bucket_edges_NoDup k).
      by apply (groups_bucket_ok n V groups). }
  apply (filter_length_three _ groups (k1, ps1) (k2, ps2) (k3, ps3)); try done.
  - by apply (NoDup_fmap_1 fst).
  - congruence.
  - congruence.
  - congruence.
  - intros [k pairs] Hin. simpl. split.
    + intros Hbucket.
      destruct (bucket_of_edge n V groups HV Hg Hok a b c d Hviol k pairs Hin Hbucket)
        as [Hk|[Hk|Hk]].
      * left. assert (k = k1) as -> by congruence.
        f_equal. by apply (NoDup_keys_unique groups k1).
      * right. left. assert (k = k2) as -> by congruence.
        f_equal. by apply (NoDup_keys_unique groups k2).
      * right. right. assert (k = k3) as -> by congruence.
        f_equal. by apply (NoDup_keys_unique groups k3).
    + intros [[= -> ->]|[[= -> ->]|[= -> ->]]]; done.
Qed.

Lemma compute_f_sf_edges_thrice_witness :
  exists (f_sf : Z) (edges : list edge) (cover : gset Z),
    compute_f_sf 15 = Ret (f_sf, edges, cover)
    /\ forall e, e ∈ edges -> count_edge e edges = 3%nat.
Proof. apply (compute_f_sf_edges_thrice 15). lia. Defined.

(** * The solver on an arbitrary hypergraph *)

(** X25: [backtrack] is a correct minimum-cover search on any list of
    4-tuples, with any degree table and any initial best cover: started
    from the empty working set it returns with the working set empty again
    (every [cover.add] is undone, [cover.remove] never raises); the best
    cover never grows; if it changed, it covers every edge and consists of
    edge vertices; and no set that covers every edge is smaller than it. *)
Theorem backtrack_correct (deg : gmap Z Z) (edges : list edge) (best0 : gset Z) :
  exists best : gset Z,
    backtrack deg edges (∅, best0) = Ret (∅, best)
    /\ (size best <= size best0)%nat
    /\ (best = best0
        \/ (is_cover best edges
            /\ forall x, x ∈ best -> exists e, e ∈ edges /\ x ∈ edge_vertices e))
    /\ forall C : gset Z, is_cover C edges -> (size best <= size C)%nat.
Proof.
  destruct (backtrack_spec deg edges ∅ best0) as (best & Hret & [Hsize Hsound Hopt]).
  exists best. split; [done|]. split; [done|]. split.
  - destruct Hsound as [->|(_ & Hcov & Hfrom)]; [by left|right].
    split; [done|]. intros x Hx.
    destruct (Hfrom x Hx) as [Hempty|?]; [|done]. by apply not_elem_of_empty in Hempty.
  - intros C HC. apply Hopt; [|done]. apply empty_subseteq.
Qed.
